(** * Shallow embedding of the ellip test-data tools

    - [src/cpp/util.cpp]                : [split_words]
    - [src/cpp/extract_test_data.cpp]   : [extract_ipp_data] (Boost .ipp scraper)
    - [src/tests/data/boost/carlson.cpp]: [split], [process_carlson], [main]
    - [src/cpp/boost_ellippi_f64.cpp]   : [main]

    A C++ [std::string] is a [list ascii]; files are a [gmap] from paths to
    their contents.  Floating-point values are an abstract type: every
    numeric library call (std::stod's conversion, operator<< at
    setprecision(17), the Boost integrals) is a parameter of the
    development, and may fail ([None]) where the C++ call throws. *)

From stdpp Require Import base list gmap strings.
From Stdlib Require Import Ascii.

Abbreviation str := (list ascii).

Definition lit (s : string) : str := String.list_ascii_of_string s.
Arguments lit s%_string.

Definition nl : ascii := ascii_of_nat 10.

(** C locale [isspace]: space, \t, \n, \v, \f, \r. *)
Definition is_space (c : ascii) : bool :=
  let n := nat_of_ascii c in (n =? 32) || ((9 <=? n) && (n <=? 13)).

Definition is_digit (c : ascii) : bool :=
  let n := nat_of_ascii c in (48 <=? n) && (n <=? 57).

(** ** [std::getline(in, line, delim)] repeated until it fails.
    A trailing piece is produced only if at least one character was read
    after the last delimiter. *)
Fixpoint getline_go (delim : ascii) (s : str) (cur : str) : list str :=
  match s with
  | [] => match cur with [] => [] | _ => [cur] end
  | c :: s' =>
      if Ascii.eqb c delim then cur :: getline_go delim s' []
      else getline_go delim s' (cur ++ [c])
  end.

Definition getlines (delim : ascii) (s : str) : list str := getline_go delim s [].

(** [line.find(needle) != std::string::npos] *)
Fixpoint is_prefix (p s : str) : bool :=
  match p, s with
  | [], _ => true
  | a :: p', b :: s' => Ascii.eqb a b && is_prefix p' s'
  | _ :: _, [] => false
  end.

Fixpoint contains (needle hay : str) : bool :=
  is_prefix needle hay || match hay with [] => false | _ :: h => contains needle h end.

Fixpoint strip_prefix (p s : str) : option str :=
  match p, s with
  | [], _ => Some s
  | a :: p', b :: s' => if Ascii.eqb a b then strip_prefix p' s' else None
  | _ :: _, [] => None
  end.

(** * util.cpp: [split_words]

    [std::vector<std::string>{std::istream_iterator<std::string>(buffer), {}}]:
    each [operator>>] skips leading whitespace, fails at end of input, and
    otherwise reads characters up to the next whitespace or the end. *)
Fixpoint skip_ws (s : str) : str :=
  match s with
  | c :: s' => if is_space c then skip_ws s' else s
  | [] => []
  end.

Fixpoint read_word (s : str) : str * str :=
  match s with
  | c :: s' =>
      if is_space c then ([], s)
      else let '(w, r) := read_word s' in (c :: w, r)
  | [] => ([], [])
  end.

Fixpoint split_words_go (fuel : nat) (s : str) : list str :=
  match fuel with
  | 0 => []
  | S f =>
      match skip_ws s with
      | [] => []
      | s1 => let '(w, r) := read_word s1 in w :: split_words_go f r
      end
  end.

Definition split_words (input : str) : list str :=
  split_words_go (S (length input)) input.

(** * extract_test_data.cpp *)
Module Extractor.

(** ** The ECMAScript regex [number_pattern]

    A backtracking matcher for the fragment of regular expressions the
    pattern uses: one-character classes, concatenation, greedy [?], and
    greedy [*] / [+] over a character class.  [bt r s k] matches [r] at the
    front of [s] and hands the remaining input to the continuation [k],
    trying alternatives in ECMAScript priority order (greedy first). *)
Inductive re :=
  | RChar (p : ascii -> bool)
  | RSeq (r1 r2 : re)
  | ROpt (r : re)
  | RStar (p : ascii -> bool)
  | RPlus (p : ascii -> bool).

Section Backtrack.
Context {X : Type}.

Fixpoint star_bt (p : ascii -> bool) (s : str) (k : str -> option X) : option X :=
  match s with
  | c :: s' =>
      if p c then match star_bt p s' k with Some x => Some x | None => k s end
      else k s
  | [] => k s
  end.

Fixpoint bt (r : re) (s : str) (k : str -> option X) : option X :=
  match r with
  | RChar p => match s with c :: s' => if p c then k s' else None | [] => None end
  | RSeq r1 r2 => bt r1 s (fun s' => bt r2 s' k)
  | ROpt r1 => match bt r1 s k with Some x => Some x | None => k s end
  | RStar p => star_bt p s k
  | RPlus p => match s with c :: s' => if p c then star_bt p s' k else None | [] => None end
  end.
End Backtrack.

Definition is_sign (c : ascii) : bool := Ascii.eqb c "-"%char || Ascii.eqb c "+"%char.
Definition is_dot (c : ascii) : bool := Ascii.eqb c "."%char.
Definition is_exp (c : ascii) : bool := Ascii.eqb c "e"%char || Ascii.eqb c "E"%char.

(** Capture group 1 of [SC_\(([-+]?[0-9]*\.?[0-9]+(?:[eE][-+]?[0-9]+)?)\)]:
    [[-+]?] [[0-9]*] [\.?] [[0-9]+] [(?:[eE][-+]?[0-9]+)?]. *)
Definition number_re : re :=
  RSeq (ROpt (RChar is_sign))
  (RSeq (RStar is_digit)
  (RSeq (ROpt (RChar is_dot))
  (RSeq (RPlus is_digit)
        (ROpt (RSeq (RChar is_exp) (RSeq (ROpt (RChar is_sign)) (RPlus is_digit))))))).

(** A match of the whole [number_pattern] starting at the front of [s]:
    the literal [SC_\(], group 1, the literal [\)].  Returns group 1 and the
    input after the match. *)
Definition match_at (s : str) : option (str * str) :=
  match strip_prefix (lit "SC_(") s with
  | Some s1 =>
      bt number_re s1 (fun s2 =>
        match s2 with
        | c :: s3 => if Ascii.eqb c ")"%char
                     then Some (take (length s1 - length s2) s1, s3) else None
        | [] => None
        end)
  | None => None
  end.

(** [std::sregex_iterator(line.begin(), line.end(), number_pattern)]:
    search for the leftmost match, then resume the search at its end. *)
Fixpoint regex_iter (fuel : nat) (s : str) : list str :=
  match fuel with
  | 0 => []
  | S f =>
      match match_at s with
      | Some (cap, rest) => cap :: regex_iter f rest
      | None => match s with [] => [] | _ :: s' => regex_iter f s' end
      end
  end.

Definition sregex_captures (line : str) : list str :=
  regex_iter (S (length line)) line.

(** ** [extract_ipp_data] *)
Definition start_marker : str := lit "static const std::array".

(** First loop: discard lines up to and including the start marker. *)
Fixpoint skip_to_start (lines : list str) : list str :=
  match lines with
  | [] => []
  | l :: rest => if contains start_marker l then rest else skip_to_start rest
  end.

Definition is_block_end (line : str) : bool :=
  contains (lit "}}") line && (length line <? 5).

(** Body of the second loop for a line holding ["SC_"]:
    [cleaned_line += match[1].str() + " "] for every match, then the
    line without its last character if it is not empty. *)
Definition row_output (line : str) : str :=
  let cleaned_line := concat (map (fun m => m ++ lit " ") (sregex_captures line)) in
  if bool_decide (cleaned_line = []) then []
  else take (length cleaned_line - 1) cleaned_line ++ [nl].

Fixpoint block_rows (lines : list str) : str :=
  match lines with
  | [] => []
  | line :: rest =>
      if is_block_end line then []
      else (if contains (lit "SC_") line then row_output line else []) ++ block_rows rest
  end.

Definition extract_text (lines : list str) : str :=
  block_rows (skip_to_start lines).

End Extractor.

(** * Files, streams and the outcome of a run *)
Record world := {
  files : gmap string str;      (* existing readable files and their bytes *)
  writable : gset string;       (* paths an std::ofstream can open *)
  cout : list str;
  cerr : list str
}.

Definition set_file (p : string) (c : str) (w : world) : world :=
  {| files := <[p := c]> (files w); writable := writable w; cout := cout w; cerr := cerr w |}.
Definition print_out (m : str) (w : world) : world :=
  {| files := files w; writable := writable w; cout := cout w ++ [m]; cerr := cerr w |}.
Definition print_err (m : str) (w : world) : world :=
  {| files := files w; writable := writable w; cout := cout w; cerr := cerr w ++ [m] |}.

(** [std::ifstream f(p)] succeeds iff the file exists; [std::ofstream f(p)]
    succeeds iff the path is writable, and then truncates (or creates) it. *)
Definition open_in (p : string) (w : world) : bool := bool_decide (is_Some (files w !! p)).
Definition open_out (p : string) (w : world) : bool := bool_decide (p ∈ writable w).
Definition truncate (p : string) (w : world) : world :=
  if open_out p w then set_file p [] w else w.

(** How a loop over the input lines stops: normally, by an uncaught
    exception (std::terminate), or by undefined behaviour. *)
Inductive status := Completed | Aborted | Undefined.

(** How a process ends: [return z] from main, abort, or undefined. *)
Inductive exit_status := ExitCode (z : Z) | Abort | UB.

Definition status_exit (st : status) : exit_status :=
  match st with Completed => ExitCode 0 | Aborted => Abort | Undefined => UB end.

(** A statement sequence that stops at the first abnormal status. *)
Definition prog := world -> status * world.
Definition seq_p (p q : prog) : prog :=
  fun w => let '(s, w1) := p w in match s with Completed => q w1 | _ => (s, w1) end.
Infix ";;;" := seq_p (at level 100, right associativity).

(** [int main() { ...; return 0; }] *)
Definition run_main (p : prog) (w : world) : exit_status * world :=
  let '(s, w') := p w in (status_exit s, w').

(** ** extract_test_data.cpp at file level *)
Definition extract_ipp_data (input_file output_file : string) : prog :=
  fun w =>
    let in_ok := open_in input_file w in
    let w1 := truncate output_file w in
    let lines := if in_ok then getlines nl (default [] (files w1 !! input_file)) else [] in
    let text := Extractor.extract_text lines in
    (Completed, if open_out output_file w then set_file output_file text w1 else w1).

Definition extract_main : world -> exit_status * world :=
  run_main (extract_ipp_data "ellint_d2_data.ipp" "../tests/data/boost/ellipdinc_data.txt").

(** * The reference data generators *)

(** [std::stod]: [strtod] after leading whitespace accepts an optional sign
    and then a digit, a point followed by a digit, "inf" or "nan" (any
    case); otherwise [std::invalid_argument] is thrown.  The value of an
    accepted literal is [stod_value], [None] when [std::out_of_range] is
    thrown. *)
Definition to_lower (c : ascii) : ascii :=
  let n := nat_of_ascii c in if (65 <=? n) && (n <=? 90) then ascii_of_nat (n + 32) else c.

Definition strtod_converts (s : str) : bool :=
  let s1 := skip_ws s in
  let s2 := match s1 with c :: r => if Extractor.is_sign c then r else s1 | [] => [] end in
  match s2 with
  | c :: r =>
      is_digit c
      || (Extractor.is_dot c && match r with d :: _ => is_digit d | [] => false end)
      || is_prefix (lit "inf") (map to_lower s2)
      || is_prefix (lit "nan") (map to_lower s2)
  | [] => false
  end.

(** carlson.cpp: [split] cuts a line at commas with [std::getline]. *)
Definition split (line : str) : list str := getlines ","%char line.

Section Generator.
Context {double : Type}.
Context (stod_value : str -> option double).
Context (fmt17 : double -> str).   (* operator<< after std::setprecision(17) *)

Definition stod (s : str) : option double :=
  if strtod_converts s then stod_value s else None.

(** [for (i < nargs) args.push_back(std::stod(tokens[i]))] *)
Fixpoint parse_args (toks : list str) : option (list double) :=
  match toks with
  | [] => Some []
  | t :: ts =>
      match stod t with
      | None => None
      | Some a => match parse_args ts with None => None | Some xs => Some (a :: xs) end
      end
  end.

(** [fout << args[i]; if (i < nargs - 1) fout << ",";] *)
Fixpoint write_args (args : list double) : str :=
  match args with
  | [] => []
  | [a] => fmt17 a
  | a :: rest => fmt17 a ++ lit "," ++ write_args rest
  end.

(** The [while (std::getline(fin, line))] loop of [process_carlson]:
    the bytes written to [fout] and how the loop stopped.  [func] returns
    [None] where the Boost function throws. *)
Fixpoint carlson_rows (nargs : nat) (func : list double -> option double)
    (lines : list str) : str * status :=
  match lines with
  | [] => ([], Completed)
  | line :: rest =>
      if bool_decide (line = []) then carlson_rows nargs func rest
      else
        let tokens := split line in
        if length tokens <? nargs then carlson_rows nargs func rest
        else
          match parse_args (take nargs tokens) with
          | None => ([], Aborted)
          | Some args =>
              match func args with
              | None => ([], Aborted)
              | Some result =>
                  let '(o, st) := carlson_rows nargs func rest in
                  (write_args args ++ lit "," ++ fmt17 result ++ [nl] ++ o, st)
              end
          end
  end.

Definition process_carlson (infile outfile : string) (nargs : nat)
    (func : list double -> option double) : prog :=
  fun w =>
    let in_ok := open_in infile w in
    let w1 := truncate outfile w in
    let lines := if in_ok then getlines nl (default [] (files w1 !! infile)) else [] in
    let '(text, st) := carlson_rows nargs func lines in
    let w2 := if open_out outfile w then set_file outfile text w1 else w1 in
    match st with
    | Completed => (Completed, print_out (lit "Generated " ++ lit outfile ++ lit ".") w2)
    | _ => (st, w2)
    end.

Context (ellint_rf ellint_rg : double -> double -> double -> option double).
Context (ellint_rj : double -> double -> double -> double -> option double).

Definition rf_fn (v : list double) : option double :=
  match v with a :: b :: c :: _ => ellint_rf a b c | _ => None end.
Definition rg_fn (v : list double) : option double :=
  match v with a :: b :: c :: _ => ellint_rg a b c | _ => None end.
Definition rj_fn (v : list double) : option double :=
  match v with a :: b :: c :: d :: _ => ellint_rj a b c d | _ => None end.

Definition carlson_main : world -> exit_status * world :=
  run_main
    (process_carlson "../wolfram/elliprf_data.csv" "elliprf_data.csv" 3 rf_fn ;;;
     process_carlson "../wolfram/elliprg_data.csv" "elliprg_data.csv" 3 rg_fn ;;;
     process_carlson "../wolfram/elliprj_data.csv" "elliprj_data.csv" 4 rj_fn ;;;
     process_carlson "../wolfram/elliprj_pv.csv" "elliprj_pv.csv" 4 rj_fn).

(** boost_ellippi_f64.cpp *)
Context (ellip3 : double -> double -> option double).

(** The loop body: [inp[1]] and [inp[0]] are read without a bounds check
    (out of range is undefined behaviour), then parsed with [stod]. *)
Fixpoint ellippi_rows (lines : list str) : str * status :=
  match lines with
  | [] => ([], Completed)
  | line :: rest =>
      let inp := split_words line in
      match inp !! 1 with
      | None => ([], Undefined)
      | Some s1 =>
          match stod s1 with
          | None => ([], Aborted)
          | Some k =>
              match inp !! 0 with
              | None => ([], Undefined)
              | Some s0 =>
                  match stod s0 with
                  | None => ([], Aborted)
                  | Some v =>
                      match ellip3 k v with
                      | None => ([], Aborted)
                      | Some ans =>
                          let '(o, st) := ellippi_rows rest in
                          (line ++ lit "    " ++ fmt17 ans ++ [nl] ++ o, st)
                      end
                  end
              end
          end
      end
  end.

Definition ellippi_in : string := "../tests/data/boost/ellippi2_data.txt".
Definition ellippi_out : string := "../tests/data/boost/ellippi2_data_f64.txt".

Definition ellippi_main (w : world) : exit_status * world :=
  let in_ok := open_in ellippi_in w in
  let out_ok := open_out ellippi_out w in
  let w1 := truncate ellippi_out w in
  if negb in_ok || negb out_ok then (ExitCode 1, print_err (lit "Cannot open file") w1)
  else
    let '(text, st) := ellippi_rows (getlines nl (default [] (files w1 !! ellippi_in))) in
    (status_exit st, set_file ellippi_out text w1).

End Generator.

(** * Reference notions used to state the properties *)

(** The language of a [re]. *)
Inductive in_re : Extractor.re -> str -> Prop :=
  | ir_char p c : p c = true -> in_re (Extractor.RChar p) [c]
  | ir_seq r1 r2 s1 s2 : in_re r1 s1 -> in_re r2 s2 -> in_re (Extractor.RSeq r1 r2) (s1 ++ s2)
  | ir_opt_some r s : in_re r s -> in_re (Extractor.ROpt r) s
  | ir_opt_none r : in_re (Extractor.ROpt r) []
  | ir_star p s : Forall (fun c => p c = true) s -> in_re (Extractor.RStar p) s
  | ir_plus p s : Forall (fun c => p c = true) s -> s <> [] -> in_re (Extractor.RPlus p) s.

(** Characters a [re] can consume. *)
Fixpoint re_chars (r : Extractor.re) (c : ascii) : bool :=
  match r with
  | Extractor.RChar p | Extractor.RStar p | Extractor.RPlus p => p c
  | Extractor.RSeq r1 r2 => re_chars r1 c || re_chars r2 c
  | Extractor.ROpt r1 => re_chars r1 c
  end.

Definition digits (d : str) : Prop := Forall (fun c => is_digit c = true) d.
Definition opt_sign (g : str) : Prop := g = [] \/ exists c, g = [c] /\ Extractor.is_sign c = true.
Definition opt_exponent (e : str) : Prop :=
  e = [] \/ exists x g ds, e = x :: g ++ ds /\ Extractor.is_exp x = true /\ opt_sign g
                           /\ digits ds /\ ds <> [].

(** The literal grammar as the specification words it: optional sign,
    digits, optional decimal point with digits, optional exponent. *)
Definition spec_literal (s : str) : Prop :=
  exists g i f e, s = g ++ i ++ f ++ e /\ opt_sign g /\ digits i /\ i <> []
    /\ (f = [] \/ exists ds, f = "."%char :: ds /\ digits ds /\ ds <> [])
    /\ opt_exponent e.

(** Optional sign, then either digits, or possibly empty digits, a point
    and digits; then an optional exponent. *)
Definition ecma_literal (s : str) : Prop :=
  exists g i f e, s = g ++ i ++ f ++ e /\ opt_sign g /\ digits i
    /\ ((i <> [] /\ f = []) \/ exists ds, f = "."%char :: ds /\ digits ds /\ ds <> [])
    /\ opt_exponent e.

(** The group-1 capture of every match of [number_pattern] that starts at
    some position of [s], by increasing position. *)
Fixpoint occurrences (s : str) : list str :=
  match Extractor.match_at s with Some (cap, _) => [cap] | None => [] end
  ++ match s with [] => [] | _ :: s' => occurrences s' end.

Fixpoint join_sp (xs : list str) : str :=
  match xs with
  | [] => []
  | [x] => x
  | x :: rest => x ++ lit " " ++ join_sp rest
  end.

(** [s] is [w0 ++ t1 ++ w1 ++ ... ++ tn ++ wn]: the [ti] are non-empty and
    whitespace-free, the [wi] whitespace only, and each [ti] is followed by
    whitespace or the end of [s] (so the tokens are maximal). *)
Inductive ws_tokens : str -> list str -> Prop :=
  | wt_end w : Forall (fun c => is_space c = true) w -> ws_tokens w []
  | wt_cons w t rest ts :
      Forall (fun c => is_space c = true) w ->
      t <> [] -> Forall (fun c => is_space c = false) t ->
      match rest with [] => True | c :: _ => is_space c = true end ->
      ws_tokens rest ts -> ws_tokens (w ++ t ++ rest) (t :: ts).

Definition count_nl (s : str) : nat := length (List.filter (fun c => Ascii.eqb c nl) s).

Definition valid_rows (nargs : nat) (lines : list str) : nat :=
  length (List.filter (fun l => negb (bool_decide (l = [])) && (nargs <=? length (split l))) lines).

(** The lines [process_carlson] reads: [fin] is opened before [fout]
    truncates [outfile], and read lazily afterwards. *)
Definition carlson_input_lines (infile outfile : string) (w : world) : list str :=
  if open_in infile w then getlines nl (default [] (files (truncate outfile w) !! infile)) else [].

(** A concrete instance of the numeric parameters, for evaluation. *)
Definition u_value (_ : str) : option unit := Some tt.
Definition u_fmt (_ : unit) : str := lit "0".
Definition u_fn (_ : list unit) : option unit := Some tt.
Definition u_rf (_ _ _ : unit) : option unit := Some tt.
Definition u_rj (_ _ _ _ : unit) : option unit := Some tt.
Definition u_ellip3 (_ _ : unit) : option unit := Some tt.

Definition empty_world : world :=
  {| files := ∅; writable := ∅; cout := []; cerr := [] |}.

Definition csv_ok_world : world :=
  {| files := {[ "in.csv"%string := lit "1,2,3" ++ [nl] ++ lit "4,5" ++ [nl; nl] ]};
     writable := {[ "out.csv"%string ]}; cout := []; cerr := [] |}.

(** A Boost .ipp source without the array declaration. *)
Definition ipp_no_marker_world : world :=
  {| files := {[ "ellint_d2_data.ipp"%string := lit "#define SC_(x) x" ++ [nl] ++ lit " }}" ++ [nl] ]};
     writable := {[ "ellipdinc_data.txt"%string ]}; cout := []; cerr := [] |}.

(** ellippi2_data.txt holding a single empty line. *)
Definition ellippi_empty_line_world : world :=
  {| files := {[ ellippi_in := [nl] ]}; writable := {[ ellippi_out ]}; cout := []; cerr := [] |}.

Definition csv_world : world :=
  {| files := {[ "in.csv"%string := lit "x,y,z" ++ [nl] ]}; writable := {[ "out.csv"%string ]};
     cout := []; cerr := [] |}.

(** Pieces joined with a delimiter (the inverse of [getlines]). *)
Fixpoint join_with (d : ascii) (ls : list str) : str :=
  match ls with
  | [] => []
  | [x] => x
  | x :: rest => x ++ d :: join_with d rest
  end.

Definition ends_with (d : ascii) (s : str) : bool :=
  match last s with Some c => Ascii.eqb c d | None => false end.

(** Lines written with a terminating delimiter each. *)
Definition terminated (d : ascii) (ls : list str) : str :=
  concat (map (fun l => l ++ [d]) ls).

Definition csv_missing_world : world :=
  {| files := ∅; writable := {[ "out.csv"%string ]}; cout := []; cerr := [] |}.

(** [w'] differs from [w] at most in the files [outs]; no path becomes
    writable or unwritable, and nothing is printed to std::cerr. *)
Definition unchanged_except (outs : list string) (w w' : world) : Prop :=
  (forall p, p ∉ outs -> files w' !! p = files w !! p) /\
  writable w' = writable w /\ cerr w' = cerr w.

(** ellippi2_data.txt missing, an earlier ellippi2_data_f64.txt present. *)
Definition ellippi_missing_input_world : world :=
  {| files := {[ ellippi_out := lit "0.5 0.5    1" ++ [nl] ]}; writable := {[ ellippi_out ]};
     cout := []; cerr := [] |}.

(** * Properties of the generators *)
Section GeneratorProofs.
Context {double : Type}.
Context (stod_value : str -> option double) (fmt17 : double -> str).

(** Skipping in the Carlson loop: an empty line or a line with fewer than
    [nargs] comma-separated fields contributes nothing, wherever it is. *)
Lemma carlson_rows_skip nargs func pre line post :
  (line = [] \/ length (split line) < nargs) ->
  carlson_rows stod_value fmt17 nargs func (pre ++ line :: post)
  = carlson_rows stod_value fmt17 nargs func (pre ++ post).
Proof.
  intros Hskip. induction pre as [|l pre IH]; simpl.
  - destruct (bool_decide (line = [])) eqn:E; [reflexivity|].
    apply bool_decide_eq_false in E.
    destruct Hskip as [Hl|Hlt]; [contradiction|].
    replace (length (split line) <? nargs) with true by (symmetry; apply Nat.ltb_lt; lia).
    reflexivity.
  - rewrite IH. reflexivity.
Qed.

Lemma carlson_rows_not_undefined nargs func lines :
  snd (carlson_rows stod_value fmt17 nargs func lines) <> Undefined.
Proof.
  induction lines as [|l lines IH]; simpl; [discriminate|].
  destruct (bool_decide (l = [])); [exact IH|].
  destruct (length (split l) <? nargs); [exact IH|].
  destruct (parse_args stod_value (take nargs (split l))); [|discriminate].
  destruct (func _); [|discriminate].
  destruct (carlson_rows _ _ _ _ lines) eqn:E. simpl in *. exact IH.
Qed.

Lemma process_carlson_world infile outfile nargs func w :
  let lines := carlson_input_lines infile outfile w in
  let r := carlson_rows stod_value fmt17 nargs func lines in
  fst (process_carlson stod_value fmt17 infile outfile nargs func w) = snd r /\
  writable (snd (process_carlson stod_value fmt17 infile outfile nargs func w)) = writable w /\
  files (snd (process_carlson stod_value fmt17 infile outfile nargs func w))
  = if open_out outfile w then <[outfile := fst r]> (files w) else files w.
Proof.
  unfold process_carlson, carlson_input_lines. simpl.
  destruct (carlson_rows _ _ _ _ _) as [text st] eqn:E. simpl.
  unfold truncate. destruct (open_out outfile w) eqn:Ho.
  - destruct st; simpl; repeat split; apply insert_insert_eq.
  - destruct st; simpl; repeat split.
Qed.


Lemma count_nl_app a b : count_nl (a ++ b) = count_nl a + count_nl b.
Proof. unfold count_nl. rewrite List.filter_app, length_app. reflexivity. Qed.

Lemma count_nl_write_args args :
  (forall d, count_nl (fmt17 d) = 0) -> count_nl (write_args fmt17 args) = 0.
Proof.
  intros Hf. induction args as [|a [|b args] IH]; simpl; [reflexivity|apply Hf|].
  rewrite count_nl_app, Hf. unfold count_nl in *. simpl. exact IH.
Qed.

Lemma carlson_rows_count nargs func lines o :
  (forall d, count_nl (fmt17 d) = 0) ->
  carlson_rows stod_value fmt17 nargs func lines = (o, Completed) ->
  count_nl o = valid_rows nargs lines.
Proof.
  intros Hf. revert o. unfold valid_rows.
  induction lines as [|l lines IH]; intros o Hrun; simpl in *.
  - inversion Hrun. reflexivity.
  - destruct (bool_decide (l = [])) eqn:E; simpl; [apply IH; exact Hrun|].
    destruct (length (split l) <? nargs) eqn:Hlt.
    + replace (nargs <=? length (split l)) with false
        by (symmetry; apply Nat.leb_gt; apply Nat.ltb_lt; exact Hlt).
      apply IH; exact Hrun.
    + replace (nargs <=? length (split l)) with true
        by (symmetry; apply Nat.leb_le; apply Nat.ltb_ge; exact Hlt).
      simpl.
      destruct (parse_args stod_value (take nargs (split l))) as [args|]; [|discriminate].
      destruct (func args) as [r|]; [|discriminate].
      destruct (carlson_rows _ _ _ _ lines) as [o' st] eqn:Hrest.
      inversion Hrun; subst.
      rewrite count_nl_app, count_nl_write_args by exact Hf.
      specialize (IH o' eq_refl). unfold count_nl in *. simpl.
      rewrite List.filter_app, length_app, Hf. simpl. rewrite IH. reflexivity.
Qed.

(** C3 (as amended): when [process_carlson] runs to the end (no std::stod
    failure and no exception from the numeric function), the output file
    has exactly one line per input line that is non-empty and has at
    least [nargs] comma-separated fields. *)
Theorem carlson_output_line_count infile outfile nargs func w c :
  (forall d, count_nl (fmt17 d) = 0) ->
  infile <> outfile -> outfile ∈ writable w -> files w !! infile = Some c ->
  fst (process_carlson stod_value fmt17 infile outfile nargs func w) = Completed ->
  exists o, files (snd (process_carlson stod_value fmt17 infile outfile nargs func w)) !! outfile = Some o
            /\ count_nl o = valid_rows nargs (getlines nl c).
Proof.
  intros Hf Hne Hw Hin Hdone.
  destruct (process_carlson_world infile outfile nargs func w) as (Hst & _ & Hfiles).
  assert (Ho : open_out outfile w = true) by (unfold open_out; apply bool_decide_eq_true; exact Hw).
  assert (Hl : carlson_input_lines infile outfile w = getlines nl c).
  { unfold carlson_input_lines, open_in, truncate. rewrite Hin, Ho. simpl.
    rewrite lookup_insert_ne by congruence. rewrite Hin. reflexivity. }
  rewrite Hl in Hst, Hfiles. rewrite Hfiles, Ho, lookup_insert_eq.
  eexists; split; [reflexivity|].
  apply (carlson_rows_count nargs func); [exact Hf|].
  rewrite Hdone in Hst. destruct (carlson_rows _ _ _ _ _). simpl in Hst. subst. reflexivity.
Qed.

Context (ellint_rf ellint_rg : double -> double -> double -> option double).
Context (ellint_rj : double -> double -> double -> double -> option double).
Context (ellip3 : double -> double -> option double).

Lemma process_carlson_not_undefined infile outfile nargs func w :
  fst (process_carlson stod_value fmt17 infile outfile nargs func w) <> Undefined.
Proof.
  destruct (process_carlson_world infile outfile nargs func w) as (-> & _ & _).
  apply carlson_rows_not_undefined.
Qed.

Lemma seq_p_not_undefined (p q : prog) w :
  (forall w, fst (p w) <> Undefined) -> (forall w, fst (q w) <> Undefined) ->
  fst ((p ;;; q) w) <> Undefined.
Proof.
  intros Hp Hq. unfold seq_p. specialize (Hp w).
  destruct (p w) as [[] w1]; simpl in *; auto.
Qed.

(** C2 (as amended): boost_ellippi_f64 reports an unusable input or output
    file with "Cannot open file" and exit status 1, having processed no
    line (the output is only truncated by its constructor), and status 1
    arises only then; otherwise it returns 0 or stops abnormally.  The
    Carlson generator never returns 1: it returns 0 or aborts on a failed
    conversion or library exception.  The extractor always returns 0. *)
Theorem programs_exit_status :
  (forall w, (negb (open_in ellippi_in w) || negb (open_out ellippi_out w)) = true ->
     ellippi_main stod_value fmt17 ellip3 w
     = (ExitCode 1, print_err (lit "Cannot open file") (truncate ellippi_out w))) /\
  (forall w z, fst (ellippi_main stod_value fmt17 ellip3 w) = ExitCode z ->
     z = 0%Z \/ (z = 1%Z /\ (negb (open_in ellippi_in w) || negb (open_out ellippi_out w)) = true)) /\
  (forall w, fst (carlson_main stod_value fmt17 ellint_rf ellint_rg ellint_rj w) = ExitCode 0
             \/ fst (carlson_main stod_value fmt17 ellint_rf ellint_rg ellint_rj w) = Abort) /\
  (forall w, fst (extract_main w) = ExitCode 0).
Proof.
  split; [|split; [|split]].
  - intros w H. unfold ellippi_main. cbv zeta. rewrite H. reflexivity.
  - intros w z. unfold ellippi_main. cbv zeta.
    destruct (negb (open_in ellippi_in w) || negb (open_out ellippi_out w)) eqn:H.
    + simpl. intros Hz. inversion Hz. right. auto.
    + destruct (ellippi_rows _ _ _ _) as [text []]; simpl; intros Hz; inversion Hz; left; reflexivity.
  - intros w. unfold carlson_main, run_main.
    match goal with |- context [?p w] =>
      assert (Hnu : fst (p w) <> Undefined) end.
    { repeat first [ apply seq_p_not_undefined | apply process_carlson_not_undefined
                   | intros ? ]. }
    match goal with |- context [?p w] => destruct (p w) as [st w'] end.
    destruct st; simpl in *; auto. contradiction.
  - intros w. reflexivity.
Qed.

Lemma ellippi_rows_short_line l post :
  length (split_words l) < 2 -> ellippi_rows stod_value fmt17 ellip3 (l :: post) = ([], Undefined).
Proof.
  intros Hl. simpl. rewrite (lookup_ge_None_2 (split_words l) 1) by lia. reflexivity.
Qed.

Lemma ellippi_rows_app_status pre rest :
  snd (ellippi_rows stod_value fmt17 ellip3 (pre ++ rest))
  = match snd (ellippi_rows stod_value fmt17 ellip3 pre) with
    | Completed => snd (ellippi_rows stod_value fmt17 ellip3 rest)
    | st => st
    end.
Proof.
  induction pre as [|l pre IH]; simpl; [reflexivity|].
  destruct (split_words l !! 1) as [s1|]; [|reflexivity].
  destruct (stod stod_value s1) as [k|]; [|reflexivity].
  destruct (split_words l !! 0) as [s0|]; [|reflexivity].
  destruct (stod stod_value s0) as [v|]; [|reflexivity].
  destruct (ellip3 k v) as [ans|]; [|reflexivity].
  destruct (ellippi_rows _ _ _ (pre ++ rest)) as [o1 st1] eqn:E1.
  destruct (ellippi_rows _ _ _ pre) as [o2 st2] eqn:E2.
  simpl in *. exact IH.
Qed.

(** C10 (as amended): a line with fewer than two whitespace-separated
    fields makes the indexing [inp[1]] undefined: a run over an input
    holding such a line never completes normally, and if every earlier line
    was processed normally, the run has undefined behaviour at that line. *)
Theorem ellippi_short_line_undefined pre l post :
  length (split_words l) < 2 ->
  snd (ellippi_rows stod_value fmt17 ellip3 (pre ++ l :: post)) <> Completed /\
  (snd (ellippi_rows stod_value fmt17 ellip3 pre) = Completed ->
   snd (ellippi_rows stod_value fmt17 ellip3 (pre ++ l :: post)) = Undefined).
Proof.
  intros Hl. rewrite ellippi_rows_app_status, ellippi_rows_short_line by exact Hl.
  simpl. split.
  - destruct (snd (ellippi_rows _ _ _ pre)); discriminate.
  - intros ->. reflexivity.
Qed.

(** C1 (code_bug): boost_ellippi_f64 does not skip an empty line: on an
    input file holding one empty line, its run has undefined behaviour. *)
Theorem ellippi_empty_line_not_skipped :
  fst (ellippi_main stod_value fmt17 ellip3 ellippi_empty_line_world) = UB.
Proof. vm_compute. reflexivity. Qed.




End GeneratorProofs.

(** ** Evaluations of the generators *)

(** C2: the Carlson generator does not check its streams: with none of
    its input files present it prints no diagnostic and returns 0. *)
Lemma carlson_missing_input_exits_zero :
  open_in "../wolfram/elliprf_data.csv" empty_world = false /\
  fst (carlson_main u_value u_fmt u_rf u_rf u_rj empty_world) = ExitCode 0 /\
  cerr (snd (carlson_main u_value u_fmt u_rf u_rf u_rj empty_world)) = [].
Proof. split; [|split]; vm_compute; reflexivity. Qed.

(** C3: a row with three fields that std::stod rejects aborts the run:
    one valid row, no output line. *)
Lemma carlson_unparsable_row_no_output :
  valid_rows 3 (getlines nl (lit "x,y,z" ++ [nl])) = 1 /\
  fst (process_carlson u_value u_fmt "in.csv" "out.csv" 3 u_fn csv_world) = Aborted /\
  files (snd (process_carlson u_value u_fmt "in.csv" "out.csv" 3 u_fn csv_world))
    !! "out.csv"%string = Some [] /\
  count_nl [] = 0.
Proof. split; [|split; [|split]]; vm_compute; reflexivity. Qed.

Lemma carlson_output_line_count_witness :
  (forall d, count_nl (u_fmt d) = 0) /\
  exists o, files (snd (process_carlson u_value u_fmt "in.csv" "out.csv" 3 u_fn csv_ok_world))
              !! "out.csv"%string = Some o
            /\ count_nl o = valid_rows 3 (getlines nl (lit "1,2,3" ++ [nl] ++ lit "4,5" ++ [nl; nl])).
Proof.
  split; [intros; reflexivity|].
  apply carlson_output_line_count.
  - intros; reflexivity.
  - discriminate.
  - simpl. apply elem_of_singleton. reflexivity.
  - reflexivity.
  - vm_compute. reflexivity.
Defined.


(** C10: the first line "a b" already aborts (std::stod("b") throws), so
    the run never reaches the following empty line. *)
Lemma ellippi_abort_before_short_line :
  getlines nl (lit "a b" ++ [nl; nl]) = [lit "a b"; []] /\
  length (split_words []) < 2 /\
  snd (ellippi_rows u_value u_fmt u_ellip3 (getlines nl (lit "a b" ++ [nl; nl]))) = Aborted.
Proof. split; [reflexivity|split; [apply Nat.ltb_lt|]; reflexivity]. Qed.

Lemma ellippi_short_line_undefined_witness :
  length (split_words (lit "0.5")) < 2 /\
  snd (ellippi_rows u_value u_fmt u_ellip3 ([lit "1 2"] ++ lit "0.5" :: [])) <> Completed /\
  (snd (ellippi_rows u_value u_fmt u_ellip3 [lit "1 2"]) = Completed ->
   snd (ellippi_rows u_value u_fmt u_ellip3 ([lit "1 2"] ++ lit "0.5" :: [])) = Undefined).
Proof.
  split; [apply Nat.ltb_lt; reflexivity|].
  apply ellippi_short_line_undefined. apply Nat.ltb_lt. reflexivity.
Defined.

(** * Properties of the extractor *)
Module ExtractorProofs.
Import Extractor.

(** ** The backtracking matcher decides the language of [re] *)
Section Matcher.
Context {X : Type}.

Lemma star_bt_sound p s (k : str -> option X) x :
  star_bt p s k = Some x ->
  exists s1 s2, s = s1 ++ s2 /\ Forall (fun c => p c = true) s1 /\ k s2 = Some x.
Proof.
  induction s as [|c s IH]; simpl; intros H.
  - exists [], []. auto.
  - destruct (p c) eqn:Hp.
    + destruct (star_bt p s k) as [y|] eqn:E.
      * inversion H; subst. destruct (IH eq_refl) as (s1 & s2 & -> & Hf & Hk).
        exists (c :: s1), s2. auto.
      * exists [], (c :: s). auto.
    + exists [], (c :: s). auto.
Qed.

Lemma bt_sound r s (k : str -> option X) x :
  bt r s k = Some x -> exists s1 s2, s = s1 ++ s2 /\ in_re r s1 /\ k s2 = Some x.
Proof.
  revert s k x. induction r as [p|r1 IH1 r2 IH2|r1 IH|p|p]; intros s k x H; simpl in H.
  - destruct s as [|c s]; [discriminate|]. destruct (p c) eqn:Hp; [|discriminate].
    exists [c], s. split; [reflexivity|split; [apply ir_char; exact Hp|exact H]].
  - destruct (IH1 _ _ _ H) as (a & b & -> & Ha & Hb).
    destruct (IH2 _ _ _ Hb) as (b1 & b2 & -> & Hb1 & Hk).
    exists (a ++ b1), b2. split; [apply app_assoc|split; [apply ir_seq; auto|exact Hk]].
  - destruct (bt r1 s k) as [y|] eqn:E.
    + inversion H; subst. destruct (IH _ _ _ E) as (a & b & -> & Ha & Hk).
      exists a, b. split; [reflexivity|split; [apply ir_opt_some; exact Ha|exact Hk]].
    + exists [], s. split; [reflexivity|split; [apply ir_opt_none|exact H]].
  - destruct (star_bt_sound _ _ _ _ H) as (a & b & -> & Ha & Hk).
    exists a, b. split; [reflexivity|split; [apply ir_star; exact Ha|exact Hk]].
  - destruct s as [|c s]; [discriminate|]. destruct (p c) eqn:Hp; [|discriminate].
    destruct (star_bt_sound _ _ _ _ H) as (a & b & -> & Ha & Hk).
    exists (c :: a), b. split; [reflexivity|split; [apply ir_plus; [constructor; auto|discriminate]|exact Hk]].
Qed.

Lemma star_bt_k p s (k : str -> option X) x : k s = Some x -> is_Some (star_bt p s k).
Proof.
  intros Hk. destruct s as [|c s]; simpl; [rewrite Hk; eauto|].
  destruct (p c); [destruct (star_bt p s k); eauto|]; rewrite Hk; eauto.
Qed.

Lemma star_bt_complete p s1 s2 (k : str -> option X) x :
  Forall (fun c => p c = true) s1 -> k s2 = Some x -> is_Some (star_bt p (s1 ++ s2) k).
Proof.
  intros Hf Hk. induction Hf as [|c s1 Hc Hf IH]; simpl; [eapply star_bt_k; eauto|].
  rewrite Hc. destruct IH as [y ->]. eauto.
Qed.

Lemma bt_complete r s1 s2 (k : str -> option X) x :
  in_re r s1 -> k s2 = Some x -> is_Some (bt r (s1 ++ s2) k).
Proof.
  intros Hr. revert s2 k x.
  induction Hr as [p c Hc|r1 r2 a b Ha IHa Hb IHb|r s Hs IH|r|p s Hs|p s Hs Hne];
    intros s2 k x Hk; simpl.
  - rewrite Hc, Hk. eauto.
  - rewrite <- app_assoc. destruct (IHb s2 k x Hk) as [y Hy].
    apply (IHa (b ++ s2) (fun s' => bt r2 s' k) y). exact Hy.
  - destruct (IH s2 k x Hk) as [y ->]. eauto.
  - destruct (bt r s2 k); [eauto|]. rewrite Hk. eauto.
  - eapply star_bt_complete; eauto.
  - destruct s as [|c s]; [congruence|]. inversion Hs; subst. simpl.
    match goal with H : p c = true |- _ => rewrite H end.
    eapply star_bt_complete; eauto.
Qed.
End Matcher.

Lemma in_re_chars r s : in_re r s -> Forall (fun c => re_chars r c = true) s.
Proof.
  induction 1 as [p c Hc|r1 r2 a b Ha IHa Hb IHb|r s Hs IH|r|p s Hs|p s Hs Hne]; simpl.
  - constructor; [exact Hc|constructor].
  - apply Forall_app. split.
    + eapply Forall_impl; [exact IHa|]. intros c Hc. rewrite Hc. reflexivity.
    + eapply Forall_impl; [exact IHb|]. intros c Hc. rewrite Hc. apply orb_true_r.
  - exact IH.
  - constructor.
  - exact Hs.
  - exact Hs.
Qed.

Lemma number_no_close s : in_re number_re s -> Forall (fun c => c <> ")"%char) s.
Proof.
  intros H. eapply Forall_impl; [apply in_re_chars; exact H|].
  intros c Hc ->. discriminate Hc.
Qed.

Lemma number_no_S s : in_re number_re s -> Forall (fun c => c <> "S"%char) s.
Proof.
  intros H. eapply Forall_impl; [apply in_re_chars; exact H|].
  intros c Hc ->. discriminate Hc.
Qed.

(** ** [match_at] finds exactly [SC_(] literal [)] *)
Lemma strip_prefix_Some p s s1 : strip_prefix p s = Some s1 -> s = p ++ s1.
Proof.
  revert s. induction p as [|a p IH]; intros [|b s] H; simpl in *; try congruence.
  destruct (Ascii.eqb a b) eqn:E; [|discriminate].
  apply Ascii.eqb_eq in E. subst. f_equal. apply IH. exact H.
Qed.

Lemma strip_prefix_app p s : strip_prefix p (p ++ s) = Some s.
Proof. induction p as [|a p IH]; simpl; [reflexivity|]. rewrite Ascii.eqb_refl. exact IH. Qed.

Lemma split_at_close a b r1 r2 :
  Forall (fun c => c <> ")"%char) a -> Forall (fun c => c <> ")"%char) b ->
  a ++ ")"%char :: r1 = b ++ ")"%char :: r2 -> a = b /\ r1 = r2.
Proof.
  revert b. induction a as [|x a IH]; intros [|y b] Ha Hb H; simpl in *.
  - inversion H. auto.
  - injection H as <- _. rewrite Forall_cons in Hb. destruct Hb as [Hy _]. congruence.
  - injection H as -> _. rewrite Forall_cons in Ha. destruct Ha as [Hx _]. congruence.
  - injection H as <- H'. rewrite Forall_cons in Ha, Hb.
    destruct Ha as [_ Ha], Hb as [_ Hb].
    destruct (IH b Ha Hb H') as [-> ->]. auto.
Qed.

Lemma match_at_Some s cap rest :
  match_at s = Some (cap, rest) ->
  s = lit "SC_(" ++ cap ++ ")"%char :: rest /\ in_re number_re cap.
Proof.
  unfold match_at. destruct (strip_prefix (lit "SC_(") s) as [s1|] eqn:Hs; [|discriminate].
  apply strip_prefix_Some in Hs. intros H.
  destruct (bt_sound _ _ _ _ H) as (a & b & Hab & Ha & Hk).
  destruct b as [|c b]; [discriminate|].
  destruct (Ascii.eqb c ")"%char) eqn:Hc; [|discriminate].
  apply Ascii.eqb_eq in Hc. subst c. injection Hk as Hcap Hrest. subst s1 s.
  rewrite <- Hcap, <- Hrest.
  replace (length (a ++ ")"%char :: b) - S (length b)) with (length a)
    by (rewrite length_app; simpl; lia).
  rewrite take_app_length. split; [reflexivity|exact Ha].
Qed.

Lemma match_at_literal cap rest :
  in_re number_re cap -> match_at (lit "SC_(" ++ cap ++ ")"%char :: rest) = Some (cap, rest).
Proof.
  intros Hcap.
  destruct (match_at (lit "SC_(" ++ cap ++ ")"%char :: rest)) as [[cap' rest']|] eqn:E.
  - apply match_at_Some in E as [Heq Hcap'].
    apply app_inv_head in Heq.
    destruct (split_at_close cap cap' rest rest') as [-> ->]; auto using number_no_close.
  - exfalso. unfold match_at in E. rewrite strip_prefix_app in E.
    match type of E with bt _ _ ?k = None =>
      edestruct (bt_complete number_re cap (")"%char :: rest) k) as [y Hy];
        [exact Hcap|reflexivity|] end.
    rewrite Hy in E. discriminate.
Qed.

Lemma match_at_not_S c s : c <> "S"%char -> match_at (c :: s) = None.
Proof.
  intros Hc. unfold match_at.
  assert (Hs : strip_prefix (lit "SC_(") (c :: s) = None).
  { cbn [lit String.list_ascii_of_string strip_prefix].
    destruct (Ascii.eqb "S"%char c) eqn:E; [apply Ascii.eqb_eq in E; congruence|reflexivity]. }
  rewrite Hs. reflexivity.
Qed.

Lemma match_at_nil : match_at [] = None.
Proof. reflexivity. Qed.

(** ** The regex iterator visits every match *)
Lemma occurrences_skip w r :
  Forall (fun c => c <> "S"%char) w -> occurrences (w ++ r) = occurrences r.
Proof.
  induction 1 as [|c w Hc Hw IH]; [reflexivity|].
  simpl. rewrite match_at_not_S by exact Hc. exact IH.
Qed.

Lemma regex_iter_occurrences fuel s :
  length s < fuel -> regex_iter fuel s = occurrences s.
Proof.
  revert s. induction fuel as [|f IH]; intros s Hlen; [lia|]. simpl.
  destruct (match_at s) as [[cap rest]|] eqn:E.
  - pose proof E as E'. apply match_at_Some in E' as [Hs Hcap].
    destruct s as [|c s']; [discriminate|]. cbn [occurrences]. rewrite E. cbn [app].
    cbn [lit String.list_ascii_of_string app] in Hs. injection Hs as -> Hs'. subst s'.
    f_equal.
    replace ("C"%char :: "_"%char :: "("%char :: cap ++ ")"%char :: rest)
      with ((["C"; "_"; "("]%char ++ cap ++ [")"%char]) ++ rest)
      by (simpl; rewrite <- app_assoc; reflexivity).
    rewrite occurrences_skip.
    + apply IH. simpl in Hlen. rewrite length_app in Hlen. simpl in Hlen. lia.
    + apply Forall_app. split; [repeat constructor; discriminate|].
      apply Forall_app. split; [apply number_no_S; exact Hcap|repeat constructor; discriminate].
  - destruct s as [|c s']; [reflexivity|]. simpl. rewrite E. simpl.
    apply IH. simpl in Hlen. lia.
Qed.

Lemma sregex_captures_occurrences s : sregex_captures s = occurrences s.
Proof. apply regex_iter_occurrences. lia. Qed.

Lemma regex_iter_in_re fuel s cap : cap ∈ regex_iter fuel s -> in_re number_re cap.
Proof.
  revert s. induction fuel as [|f IH]; intros s H; simpl in H; [inversion H|].
  destruct (match_at s) as [[c rest]|] eqn:E.
  - apply elem_of_cons in H as [->|H]; [apply (match_at_Some _ _ _ E)|apply (IH rest H)].
  - destruct s as [|x s']; [inversion H|apply (IH s' H)].
Qed.

(** ** The language of [number_re] *)
Lemma in_re_seq_iff r1 r2 s :
  in_re (RSeq r1 r2) s <-> exists a b, s = a ++ b /\ in_re r1 a /\ in_re r2 b.
Proof.
  split; [intros H; inversion H; subst; eauto|].
  intros (a & b & -> & Ha & Hb). constructor; assumption.
Qed.

Lemma in_re_opt_iff r s : in_re (ROpt r) s <-> s = [] \/ in_re r s.
Proof.
  split; [intros H; inversion H; subst; auto|].
  intros [->|H]; [apply ir_opt_none|apply ir_opt_some; exact H].
Qed.

Lemma in_re_char_iff p s : in_re (RChar p) s <-> exists c, s = [c] /\ p c = true.
Proof.
  split; [intros H; inversion H; subst; eauto|].
  intros (c & -> & Hc). constructor. exact Hc.
Qed.

Lemma in_re_star_iff p s : in_re (RStar p) s <-> Forall (fun c => p c = true) s.
Proof. split; [intros H; inversion H; subst; auto|intros H; constructor; exact H]. Qed.

Lemma in_re_plus_iff p s :
  in_re (RPlus p) s <-> Forall (fun c => p c = true) s /\ s <> [].
Proof. split; [intros H; inversion H; subst; auto|intros [H1 H2]; constructor; assumption]. Qed.

Lemma opt_sign_re g : in_re (ROpt (RChar is_sign)) g <-> opt_sign g.
Proof. rewrite in_re_opt_iff, in_re_char_iff. reflexivity. Qed.

Lemma opt_exponent_re e :
  in_re (ROpt (RSeq (RChar is_exp) (RSeq (ROpt (RChar is_sign)) (RPlus is_digit)))) e
  <-> opt_exponent e.
Proof.
  rewrite in_re_opt_iff. unfold opt_exponent. split.
  - intros [->|H]; [left; reflexivity|right].
    apply in_re_seq_iff in H as (a & b & -> & Ha & Hb).
    apply in_re_char_iff in Ha as (x & -> & Hx).
    apply in_re_seq_iff in Hb as (g & ds & -> & Hg & Hds).
    apply opt_sign_re in Hg. apply in_re_plus_iff in Hds as [Hds Hne].
    exists x, g, ds. auto.
  - intros [->|(x & g & ds & -> & Hx & Hg & Hds & Hne)]; [left; reflexivity|right].
    apply (in_re_seq_iff _ _ ([x] ++ g ++ ds)). exists [x], (g ++ ds).
    split; [reflexivity|]. split; [apply in_re_char_iff; eauto|].
    apply in_re_seq_iff. exists g, ds. split; [reflexivity|].
    split; [apply opt_sign_re; exact Hg|apply in_re_plus_iff; auto].
Qed.

Lemma is_dot_eq c : is_dot c = true -> c = "."%char.
Proof. unfold is_dot. apply Ascii.eqb_eq. Qed.

Lemma number_re_literal s : in_re number_re s <-> ecma_literal s.
Proof.
  unfold number_re, ecma_literal. rewrite in_re_seq_iff. split.
  - intros (g & m & -> & Hg & Hm). apply opt_sign_re in Hg.
    apply in_re_seq_iff in Hm as (d1 & m1 & -> & Hd1 & Hm1).
    apply in_re_star_iff in Hd1.
    apply in_re_seq_iff in Hm1 as (o & m2 & -> & Ho & Hm2).
    apply in_re_seq_iff in Hm2 as (d2 & e & -> & Hd2 & He).
    apply in_re_plus_iff in Hd2 as [Hd2 Hne]. apply opt_exponent_re in He.
    apply in_re_opt_iff in Ho as [->|Ho].
    + exists g, (d1 ++ d2), [], e. simpl. rewrite <- app_assoc.
      split; [reflexivity|]. split; [exact Hg|]. split; [apply Forall_app; auto|].
      split; [left; split; [intros Hnil; apply app_eq_nil in Hnil as [_ ?]; contradiction|reflexivity]|].
      exact He.
    + apply in_re_char_iff in Ho as (c & -> & Hc). apply is_dot_eq in Hc. subst c.
      exists g, d1, ("."%char :: d2), e. split; [reflexivity|].
      split; [exact Hg|]. split; [exact Hd1|]. split; [right; exists d2; auto|exact He].
  - intros (g & i & f & e & -> & Hg & Hi & Hm & He).
    exists g, (i ++ f ++ e). split; [reflexivity|]. split; [apply opt_sign_re; exact Hg|].
    apply opt_exponent_re in He.
    destruct Hm as [[Hne ->]|(ds & -> & Hds & Hne)].
    + apply in_re_seq_iff. exists [], (i ++ [] ++ e). split; [reflexivity|].
      split; [apply in_re_star_iff; constructor|].
      apply in_re_seq_iff. exists [], (i ++ [] ++ e). split; [reflexivity|].
      split; [apply ir_opt_none|].
      apply in_re_seq_iff. exists i, e. split; [reflexivity|].
      split; [apply in_re_plus_iff; auto|exact He].
    + apply in_re_seq_iff. exists i, ("."%char :: ds ++ e). split; [reflexivity|].
      split; [apply in_re_star_iff; exact Hi|].
      apply in_re_seq_iff. exists ["."%char], (ds ++ e). split; [reflexivity|].
      split; [apply ir_opt_some; apply in_re_char_iff; eauto|].
      apply in_re_seq_iff. exists ds, e. split; [reflexivity|].
      split; [apply in_re_plus_iff; auto|exact He].
Qed.

(** ** Rows, block boundaries *)
Lemma regex_iter_nil f : regex_iter f [] = [].
Proof. destruct f; reflexivity. Qed.

Lemma concat_space x xs :
  concat (map (fun m => m ++ lit " ") (x :: xs)) = join_sp (x :: xs) ++ lit " ".
Proof.
  revert x. induction xs as [|y xs IH]; intros x; simpl.
  - rewrite app_nil_r. reflexivity.
  - specialize (IH y). simpl in IH. rewrite IH. rewrite <- !app_assoc. reflexivity.
Qed.

Lemma row_output_occurrences l :
  row_output l = match occurrences l with [] => [] | caps => join_sp caps ++ [nl] end.
Proof.
  unfold row_output. rewrite sregex_captures_occurrences.
  destruct (occurrences l) as [|x xs]; [reflexivity|].
  rewrite concat_space. remember (join_sp (x :: xs)) as J.
  rewrite bool_decide_eq_false_2 by (intros H; apply app_eq_nil in H as [_ H]; discriminate H).
  replace (length (J ++ lit " ") - 1) with (length J) by (rewrite length_app; simpl; lia).
  rewrite take_app_length. reflexivity.
Qed.

Lemma skip_to_start_none lines :
  Forall (fun l => contains start_marker l = false) lines -> skip_to_start lines = [].
Proof. induction 1 as [|l lines Hl _ IH]; simpl; [reflexivity|]. rewrite Hl. exact IH. Qed.

Lemma skip_to_start_app pre start rest :
  Forall (fun l => contains start_marker l = false) pre -> contains start_marker start = true ->
  skip_to_start (pre ++ start :: rest) = rest.
Proof.
  intros Hpre Hs. induction Hpre as [|l pre Hl _ IH]; simpl; [rewrite Hs; reflexivity|].
  rewrite Hl. exact IH.
Qed.

Lemma block_rows_end mid term post :
  is_block_end term = true -> block_rows (mid ++ term :: post) = block_rows (mid ++ [term]).
Proof.
  intros Ht. induction mid as [|l mid IH]; simpl; [rewrite Ht; reflexivity|].
  destruct (is_block_end l); [reflexivity|]. rewrite IH. reflexivity.
Qed.

(** C7 (as amended): [SC_(s)] yields exactly the capture [s] iff [s] is
    an optional sign, then digits, or possibly empty digits followed by a
    point and digits, then an optional exponent ([e] or [E], optional
    sign, digits). *)
Theorem marker_literal_extracted s :
  sregex_captures (lit "SC_(" ++ s ++ [")"%char]) = [s] <-> ecma_literal s.
Proof.
  rewrite <- number_re_literal. split.
  - intros H. apply (regex_iter_in_re (S (length (lit "SC_(" ++ s ++ [")"%char])))
                                      (lit "SC_(" ++ s ++ [")"%char])).
    unfold sregex_captures in H. rewrite H. apply list_elem_of_singleton. reflexivity.
  - intros Hs. unfold sregex_captures. cbn [regex_iter].
    rewrite match_at_literal by exact Hs. rewrite regex_iter_nil. reflexivity.
Qed.

(** C4: inside the block, a line holding the row marker [SC_] contributes
    the captures of all matches of the pattern on that line, in order of
    position, joined by single spaces as one output line; no line when
    there is no match.  The scan then goes on with the next line. *)
Theorem block_row_all_occurrences l rest :
  is_block_end l = false -> contains (lit "SC_") l = true ->
  block_rows (l :: rest)
  = match occurrences l with [] => [] | caps => join_sp caps ++ [nl] end ++ block_rows rest.
Proof.
  intros Hend Hsc. cbn [block_rows]. rewrite Hend, Hsc, row_output_occurrences. reflexivity.
Qed.

(** C6: once a block-terminating line (holding [}}], shorter than five
    characters) follows the start marker, the lines after it do not change
    the output, whatever they hold. *)
Theorem block_end_stops_scan pre start mid term post :
  Forall (fun l => contains start_marker l = false) pre ->
  contains start_marker start = true -> is_block_end term = true ->
  extract_text (pre ++ start :: mid ++ term :: post)
  = extract_text (pre ++ start :: mid ++ [term]).
Proof.
  intros Hpre Hs Ht. unfold extract_text.
  rewrite !skip_to_start_app by assumption. apply block_rows_end. exact Ht.
Qed.

(** C5: if no line of the input holds the start marker, the extractor
    finishes normally and leaves an empty output file. *)
Theorem no_start_marker_empty_output input output w :
  output ∈ writable w ->
  (forall c, files w !! input = Some c ->
             Forall (fun l => contains start_marker l = false) (getlines nl c)) ->
  fst (extract_ipp_data input output w) = Completed /\
  files (snd (extract_ipp_data input output w)) !! output = Some [].
Proof.
  intros Hw Hin. unfold extract_ipp_data, truncate, set_file, open_in.
  assert (Ho : open_out output w = true) by (unfold open_out; apply bool_decide_eq_true; exact Hw).
  rewrite Ho. simpl. split; [reflexivity|].
  rewrite lookup_insert_eq. f_equal.
  assert (Hlines : Forall (fun l => contains start_marker l = false)
    (if bool_decide (is_Some (files w !! input))
     then getlines nl (default [] (<[output:=[]]> (files w) !! input)) else [])).
  { destruct (bool_decide _); [|constructor].
    destruct (decide (input = output)) as [->|Hne].
    - rewrite lookup_insert_eq. constructor.
    - rewrite lookup_insert_ne by congruence.
      destruct (files w !! input) as [c|] eqn:Hc; [apply Hin; reflexivity|constructor]. }
  unfold extract_text. rewrite (skip_to_start_none _ Hlines). reflexivity.
Qed.

End ExtractorProofs.

(** ** Evaluations of the extractor *)

(** C7: [SC_(.5)] yields [.5], which has no digit before the point and is
    outside the grammar the specification states. *)
Lemma dot_five_extracted_not_spec_literal :
  Extractor.sregex_captures (lit "SC_(.5)") = [lit ".5"] /\ ~ spec_literal (lit ".5").
Proof.
  split; [reflexivity|].
  intros (g & i & f & e & Heq & Hg & Hi & Hne & _ & _).
  destruct Hg as [->|(c & -> & Hc)].
  - destruct i as [|d i]; [congruence|]. simpl in Heq. injection Heq as <- _.
    inversion Hi as [|? ? Hd]. discriminate Hd.
  - simpl in Heq. injection Heq as <- _. discriminate Hc.
Qed.

Lemma block_row_all_occurrences_witness :
  Extractor.is_block_end (lit "    {{ SC_(0.5), SC_(-1e-3) }},") = false /\
  contains (lit "SC_") (lit "    {{ SC_(0.5), SC_(-1e-3) }},") = true /\
  Extractor.block_rows [lit "    {{ SC_(0.5), SC_(-1e-3) }},"]
  = match occurrences (lit "    {{ SC_(0.5), SC_(-1e-3) }},") with
    | [] => [] | caps => join_sp caps ++ [nl] end ++ Extractor.block_rows [].
Proof.
  split; [reflexivity|split; [reflexivity|]].
  apply ExtractorProofs.block_row_all_occurrences; reflexivity.
Defined.

Lemma block_end_stops_scan_witness :
  Extractor.extract_text
    ([] ++ lit "static const std::array<std::array<T, 3>, 2> data = {{"
        :: [lit "  {{ SC_(1) }},"] ++ lit "  }}" :: [lit "  {{ SC_(2) }},"])
  = Extractor.extract_text
    ([] ++ lit "static const std::array<std::array<T, 3>, 2> data = {{"
        :: [lit "  {{ SC_(1) }},"] ++ [lit "  }}"]).
Proof.
  apply ExtractorProofs.block_end_stops_scan;
    [constructor|reflexivity|reflexivity].
Defined.

Lemma no_start_marker_empty_output_witness :
  fst (extract_ipp_data "ellint_d2_data.ipp" "ellipdinc_data.txt" ipp_no_marker_world) = Completed /\
  files (snd (extract_ipp_data "ellint_d2_data.ipp" "ellipdinc_data.txt" ipp_no_marker_world))
    !! "ellipdinc_data.txt"%string = Some [].
Proof.
  apply ExtractorProofs.no_start_marker_empty_output.
  - simpl. apply elem_of_singleton. reflexivity.
  - intros c Hc. simpl in Hc. rewrite lookup_singleton_eq in Hc. injection Hc as <-.
    repeat constructor.
Defined.

(** * Properties of [split_words] *)
Module SplitWordsProofs.

Lemma skip_ws_spec s :
  exists w, s = w ++ skip_ws s /\ Forall (fun c => is_space c = true) w /\
            match skip_ws s with [] => True | c :: _ => is_space c = false end.
Proof.
  induction s as [|c s IH]; simpl; [exists []; auto|].
  destruct (is_space c) eqn:Hc.
  - destruct IH as (w & Hs & Hw & Hh). exists (c :: w). simpl. rewrite <- Hs. auto.
  - exists []. simpl. rewrite Hc. auto.
Qed.

Lemma skip_ws_spaces w r :
  Forall (fun c => is_space c = true) w -> skip_ws (w ++ r) = skip_ws r.
Proof. induction 1 as [|c w Hc _ IH]; simpl; [reflexivity|]. rewrite Hc. exact IH. Qed.

Lemma skip_ws_word t r :
  t <> [] -> Forall (fun c => is_space c = false) t -> skip_ws (t ++ r) = t ++ r.
Proof.
  intros Hne Ht. destruct t as [|c t]; [congruence|]. inversion Ht; subst. simpl.
  match goal with H : is_space c = false |- _ => rewrite H end. reflexivity.
Qed.

Lemma read_word_spec s t r :
  read_word s = (t, r) ->
  s = t ++ r /\ Forall (fun c => is_space c = false) t /\
  match r with [] => True | c :: _ => is_space c = true end.
Proof.
  revert t r. induction s as [|c s IH]; intros t r H; simpl in H.
  - injection H as <- <-. auto.
  - destruct (is_space c) eqn:Hc.
    + injection H as <- <-. simpl. rewrite Hc. auto.
    + destruct (read_word s) as [t' r'] eqn:E. injection H as <- <-.
      destruct (IH t' r' eq_refl) as (-> & Ht & Hr). simpl. auto.
Qed.

Lemma read_word_app t r :
  Forall (fun c => is_space c = false) t ->
  match r with [] => True | c :: _ => is_space c = true end ->
  read_word (t ++ r) = (t, r).
Proof.
  intros Ht Hr. induction Ht as [|c t Hc _ IH]; simpl.
  - destruct r as [|c r]; [reflexivity|]. simpl. rewrite Hr. reflexivity.
  - rewrite Hc, IH. reflexivity.
Qed.

Lemma split_words_go_tokens fuel s :
  length s < fuel -> ws_tokens s (split_words_go fuel s).
Proof.
  revert s. induction fuel as [|f IH]; intros s Hlen; [lia|]. cbn [split_words_go].
  destruct (skip_ws_spec s) as (w & Hs & Hw & Hh).
  destruct (skip_ws s) as [|c s1] eqn:Hsk.
  - rewrite app_nil_r in Hs. subst s. constructor. exact Hw.
  - destruct (read_word (c :: s1)) as [t r] eqn:Hrw.
    destruct (read_word_spec _ _ _ Hrw) as (Hct & Ht & Hr).
    assert (Htne : t <> []).
    { intros ->. simpl in Hct. subst r. simpl in Hr. congruence. }
    rewrite Hs, Hct. constructor; auto.
    apply IH. rewrite Hs, Hct, !length_app in Hlen.
    destruct t; [congruence|]. simpl in Hlen. lia.
Qed.

Lemma ws_tokens_split_words_go s ts :
  ws_tokens s ts -> forall fuel, length s < fuel -> split_words_go fuel s = ts.
Proof.
  induction 1 as [w Hw|w t rest ts Hw Hne Ht Hr _ IH]; intros [|f] Hlen; try lia;
    cbn [split_words_go].
  - rewrite <- (app_nil_r w), skip_ws_spaces by exact Hw. reflexivity.
  - rewrite skip_ws_spaces, skip_ws_word by assumption.
    destruct t as [|c t']; [congruence|].
    pose proof (read_word_app (c :: t') rest Ht Hr) as Hrw.
    cbn [app] in Hrw |- *. rewrite Hrw.
    f_equal. apply IH. rewrite !length_app in Hlen. simpl in Hlen. lia.
Qed.

Lemma ws_tokens_filter s ts :
  ws_tokens s ts -> concat ts = List.filter (fun c => negb (is_space c)) s.
Proof.
  assert (Hsp : forall w, Forall (fun c => is_space c = true) w ->
                List.filter (fun c => negb (is_space c)) w = []).
  { induction 1 as [|c w Hc _ IH]; simpl; [reflexivity|]. rewrite Hc. exact IH. }
  assert (Hns : forall t, Forall (fun c => is_space c = false) t ->
                List.filter (fun c => negb (is_space c)) t = t).
  { induction 1 as [|c t Hc _ IH]; simpl; [reflexivity|]. rewrite Hc, IH. reflexivity. }
  induction 1 as [w Hw|w t rest ts Hw Hne Ht Hr _ IH]; simpl.
  - rewrite Hsp by exact Hw. reflexivity.
  - rewrite !List.filter_app, Hsp, Hns, IH by assumption. reflexivity.
Qed.

Lemma ws_tokens_words s ts :
  ws_tokens s ts -> Forall (fun t => t <> [] /\ Forall (fun c => is_space c = false) t) ts.
Proof. induction 1; constructor; auto. Qed.

(** C9: [split_words] returns exactly the maximal whitespace-free pieces
    of its input, left to right: the result is the unique token list of
    the decomposition [ws_tokens]; every token is non-empty and holds no
    whitespace; the tokens together hold the non-whitespace characters of
    the input, each once and in order; and the result is empty iff the
    input is whitespace only (or empty). *)
Theorem split_words_maximal_tokens s :
  (forall ts, ws_tokens s ts <-> split_words s = ts) /\
  Forall (fun t => t <> [] /\ Forall (fun c => is_space c = false) t) (split_words s) /\
  concat (split_words s) = List.filter (fun c => negb (is_space c)) s /\
  (split_words s = [] <-> Forall (fun c => is_space c = true) s).
Proof.
  assert (Htok : ws_tokens s (split_words s)) by (apply split_words_go_tokens; lia).
  split; [|split; [|split]].
  - intros ts. split.
    + intros H. apply (ws_tokens_split_words_go s ts H). lia.
    + intros <-. exact Htok.
  - apply (ws_tokens_words s). exact Htok.
  - apply ws_tokens_filter. exact Htok.
  - split.
    + intros Hnil. rewrite Hnil in Htok. inversion Htok. assumption.
    + intros Hw. apply (ws_tokens_split_words_go s []); [constructor; exact Hw|lia].
Qed.

End SplitWordsProofs.

(** * Reading and writing delimited text ([std::getline], [split]) *)
Module LineProofs.

Lemma ends_with_free d x : Forall (fun c => c <> d) x -> ends_with d x = false.
Proof.
  intros Hx. unfold ends_with. destruct (last x) as [c|] eqn:E; [|reflexivity].
  apply Ascii.eqb_neq. apply last_Some_elem_of in E.
  rewrite Forall_forall in Hx. apply Hx. exact E.
Qed.

Lemma ends_with_app d a b : b <> [] -> ends_with d (a ++ b) = ends_with d b.
Proof.
  intros Hb. unfold ends_with. rewrite last_app.
  destruct (last b) eqn:E; [reflexivity|]. apply last_None in E. contradiction.
Qed.

Lemma getline_go_piece d l rest cur :
  Forall (fun c => c <> d) l ->
  getline_go d (l ++ d :: rest) cur = (cur ++ l) :: getline_go d rest [].
Proof.
  intros Hl. revert cur. induction Hl as [|c l Hc _ IH]; intros cur; simpl.
  - rewrite Ascii.eqb_refl, app_nil_r. reflexivity.
  - replace (Ascii.eqb c d) with false by (symmetry; apply Ascii.eqb_neq; exact Hc).
    rewrite IH, <- app_assoc. reflexivity.
Qed.

Lemma getline_go_last d l cur :
  Forall (fun c => c <> d) l -> cur ++ l <> [] -> getline_go d l cur = [cur ++ l].
Proof.
  intros Hl. revert cur. induction Hl as [|c l Hc _ IH]; intros cur Hne; simpl.
  - rewrite app_nil_r in *. destruct cur; [congruence|reflexivity].
  - replace (Ascii.eqb c d) with false by (symmetry; apply Ascii.eqb_neq; exact Hc).
    rewrite IH, <- app_assoc; [reflexivity|]. rewrite <- app_assoc. exact Hne.
Qed.

Lemma getline_go_nonempty d s cur : (s <> [] \/ cur <> []) -> getline_go d s cur <> [].
Proof.
  revert cur. induction s as [|c s IH]; intros cur H; simpl.
  - destruct H as [H|H]; [congruence|]. destruct cur; congruence.
  - destruct (Ascii.eqb c d); [discriminate|]. apply IH. right.
    intros Hc. apply app_eq_nil in Hc as [_ Hc]. discriminate Hc.
Qed.

Lemma getlines_terminated d ls :
  Forall (Forall (fun c => c <> d)) ls -> getlines d (terminated d ls) = ls.
Proof.
  unfold getlines, terminated. induction 1 as [|l ls Hl _ IH]; simpl; [reflexivity|].
  rewrite <- app_assoc. simpl. rewrite getline_go_piece by exact Hl. simpl. rewrite IH. reflexivity.
Qed.

Lemma getlines_join d fs :
  fs <> [] -> Forall (Forall (fun c => c <> d)) fs -> last fs <> Some [] ->
  getlines d (join_with d fs) = fs.
Proof.
  unfold getlines. intros Hne Hfs. induction Hfs as [|x fs Hx Hfs IH]; [congruence|].
  destruct fs as [|y fs]; simpl; intros Hlast.
  - apply getline_go_last; [exact Hx|]. simpl. congruence.
  - rewrite getline_go_piece by exact Hx. simpl. f_equal. apply IH; [discriminate|exact Hlast].
Qed.

Lemma join_with_cons d x ys : ys <> [] -> join_with d (x :: ys) = x ++ d :: join_with d ys.
Proof. destruct ys; [congruence|reflexivity]. Qed.

Lemma join_with_snoc d xs y : xs <> [] -> join_with d (xs ++ [y]) = join_with d xs ++ d :: y.
Proof.
  induction xs as [|x xs IH]; intros Hne; [congruence|].
  destruct xs as [|x' xs]; [reflexivity|].
  change ((x :: x' :: xs) ++ [y]) with (x :: ((x' :: xs) ++ [y])).
  rewrite (join_with_cons d x ((x' :: xs) ++ [y])) by (simpl; discriminate).
  rewrite IH by discriminate. rewrite (join_with_cons d x (x' :: xs)) by discriminate.
  rewrite <- app_assoc. reflexivity.
Qed.

Lemma join_with_Forall (P : ascii -> Prop) d fs :
  P d -> Forall (Forall P) fs -> Forall P (join_with d fs).
Proof.
  intros Hd. induction 1 as [|x fs Hx Hfs IH]; [constructor|].
  destruct fs as [|y fs]; [exact Hx|].
  rewrite join_with_cons by discriminate. apply Forall_app. split; [exact Hx|].
  constructor; [exact Hd|exact IH].
Qed.

Lemma getline_go_rejoin d s cur :
  Forall (fun c => c <> d) cur ->
  Forall (Forall (fun c => c <> d)) (getline_go d s cur) /\
  join_with d (getline_go d s cur) ++ (if ends_with d (cur ++ s) then [d] else []) = cur ++ s.
Proof.
  revert cur. induction s as [|c s IH]; intros cur Hcur; simpl.
  - rewrite app_nil_r, (ends_with_free d cur Hcur), app_nil_r.
    destruct cur as [|a cur]; split; auto.
  - destruct (Ascii.eqb c d) eqn:Ec.
    + apply Ascii.eqb_eq in Ec. subst c.
      destruct (IH [] (List.Forall_nil _)) as [Hf Hj]. split; [constructor; assumption|].
      destruct s as [|e s].
      * simpl. unfold ends_with. rewrite last_snoc, Ascii.eqb_refl. reflexivity.
      * rewrite join_with_cons by (apply getline_go_nonempty; left; discriminate).
        replace (cur ++ d :: e :: s) with ((cur ++ [d]) ++ e :: s) by (rewrite <- app_assoc; reflexivity).
        rewrite ends_with_app by discriminate. simpl in Hj.
        rewrite <- app_assoc. simpl. rewrite Hj, <- app_assoc. reflexivity.
    + assert (Hc : c <> d) by (apply Ascii.eqb_neq; exact Ec).
      destruct (IH (cur ++ [c])) as [Hf Hj].
      { apply Forall_app. split; [exact Hcur|constructor; [exact Hc|constructor]]. }
      rewrite <- app_assoc in Hj. split; [exact Hf|exact Hj].
Qed.

End LineProofs.

(** * Further properties of the generators *)
Section GeneratorExtras.
Context {double : Type}.
Context (stod_value : str -> option double) (fmt17 : double -> str).
Context (ellint_rf ellint_rg : double -> double -> double -> option double).
Context (ellint_rj : double -> double -> double -> double -> option double).
Context (ellip3 : double -> double -> option double).

Lemma parse_args_Some toks args :
  parse_args stod_value toks = Some args -> Forall2 (fun t a => stod stod_value t = Some a) toks args.
Proof.
  revert args. induction toks as [|t ts IH]; intros args H; simpl in H.
  - injection H as <-. constructor.
  - destruct (stod stod_value t) as [a|] eqn:Ea; [|discriminate].
    destruct (parse_args stod_value ts) as [xs|] eqn:Exs; [|discriminate].
    injection H as <-. constructor; [exact Ea|apply IH; reflexivity].
Qed.

Lemma parse_args_None toks :
  parse_args stod_value toks = None <-> Exists (fun t => stod stod_value t = None) toks.
Proof.
  induction toks as [|t ts IH]; simpl.
  - split; [discriminate|intros H; inversion H].
  - rewrite Exists_cons, <- IH.
    destruct (stod stod_value t) as [a|]; [|split; [intros _; left; reflexivity|reflexivity]].
    destruct (parse_args stod_value ts).
    + split; [discriminate|intros [H|H]; discriminate].
    + split; [intros _; right; reflexivity|reflexivity].
Qed.

Lemma carlson_rows_records nargs func lines o st :
  carlson_rows stod_value fmt17 nargs func lines = (o, st) ->
  exists recs, o = terminated nl recs /\
    Forall (fun l => exists args r, length args = nargs /\ func args = Some r /\
                       l = write_args fmt17 args ++ lit "," ++ fmt17 r) recs.
Proof.
  revert o st. induction lines as [|line lines IH]; intros o st H; cbn [carlson_rows] in H.
  - injection H as <- _. exists []. split; [reflexivity|constructor].
  - destruct (bool_decide (line = [])); [apply (IH o st H)|].
    destruct (length (split line) <? nargs) eqn:Elen; [apply (IH o st H)|].
    destruct (parse_args stod_value (take nargs (split line))) as [args|] eqn:Ep;
      [|injection H as <- _; exists []; split; [reflexivity|constructor]].
    destruct (func args) as [r|] eqn:Ef;
      [|injection H as <- _; exists []; split; [reflexivity|constructor]].
    destruct (carlson_rows stod_value fmt17 nargs func lines) as [o' st'] eqn:Erest.
    injection H as <- _. destruct (IH o' st' eq_refl) as (recs & -> & Hrecs).
    exists ((write_args fmt17 args ++ lit "," ++ fmt17 r) :: recs). split.
    + unfold terminated. cbn [map concat]. rewrite <- !app_assoc. reflexivity.
    + constructor; [|exact Hrecs]. exists args, r. split; [|split; [exact Ef|reflexivity]].
      apply parse_args_Some, Forall2_length in Ep. rewrite <- Ep, length_take.
      apply Nat.ltb_ge in Elen. lia.
Qed.

Lemma write_args_join args :
  args <> [] -> write_args fmt17 args = join_with ","%char (map fmt17 args).
Proof.
  induction args as [|a [|b args] IH]; intros Hne; [congruence|reflexivity|].
  transitivity (fmt17 a ++ ","%char :: write_args fmt17 (b :: args)); [reflexivity|].
  rewrite IH by discriminate. reflexivity.
Qed.

Lemma record_fields args r :
  (forall x, fmt17 x <> [] /\ Forall (fun c => c <> ","%char /\ c <> nl) (fmt17 x)) ->
  args <> [] ->
  split (write_args fmt17 args ++ lit "," ++ fmt17 r) = map fmt17 args ++ [fmt17 r] /\
  Forall (fun c => c <> nl) (write_args fmt17 args ++ lit "," ++ fmt17 r).
Proof.
  intros Hf Hne.
  assert (Hj : write_args fmt17 args ++ lit "," ++ fmt17 r
               = join_with ","%char (map fmt17 args ++ [fmt17 r])).
  { rewrite LineProofs.join_with_snoc, write_args_join by (destruct args; simpl; congruence).
    reflexivity. }
  assert (Hall : Forall (Forall (fun c => c <> ","%char /\ c <> nl)) (map fmt17 args ++ [fmt17 r])).
  { apply Forall_app. split.
    - clear Hne Hj. induction args as [|a args IH]; simpl; constructor; [apply Hf|exact IH].
    - constructor; [apply Hf|constructor]. }
  rewrite Hj. split.
  - apply LineProofs.getlines_join.
    + intros H. apply app_eq_nil in H as [_ H]. discriminate H.
    + eapply Forall_impl; [exact Hall|]. intros x Hx.
      eapply Forall_impl; [exact Hx|]. intros c [Hc _]. exact Hc.
    + rewrite last_snoc. intros H. injection H as H. apply (Hf r). exact H.
  - apply LineProofs.join_with_Forall; [apply Ascii.eqb_neq; reflexivity|].
    eapply Forall_impl; [exact Hall|]. intros x Hx.
    eapply Forall_impl; [exact Hx|]. intros c [_ Hc]. exact Hc.
Qed.

Lemma process_carlson_frame_aux infile outfile nargs func w :
  unchanged_except [outfile] w (snd (process_carlson stod_value fmt17 infile outfile nargs func w)).
Proof.
  destruct (process_carlson_world stod_value fmt17 infile outfile nargs func w) as (_ & Hw & Hf).
  split; [|split; [exact Hw|]].
  - intros p Hp. rewrite Hf. destruct (open_out outfile w); [|reflexivity].
    apply lookup_insert_ne. intros ->. apply Hp. constructor.
  - unfold process_carlson. cbv zeta. destruct (carlson_rows _ _ _ _ _) as [text st].
    unfold truncate. destruct (open_out outfile w), st; reflexivity.
Qed.

Lemma seq_p_unchanged outs (p q : prog) :
  (forall w, unchanged_except outs w (snd (p w))) ->
  (forall w, unchanged_except outs w (snd (q w))) ->
  forall w, unchanged_except outs w (snd ((p ;;; q) w)).
Proof.
  intros Hp Hq w. unfold seq_p. specialize (Hp w). destruct (p w) as [s w1].
  destruct s; [|exact Hp|exact Hp]. simpl in Hp. specialize (Hq w1).
  destruct (q w1) as [s2 w2]. simpl in *.
  destruct Hp as (Hf1 & Hw1 & He1), Hq as (Hf2 & Hw2 & He2).
  split; [|split; congruence]. intros x Hx. rewrite Hf2, Hf1 by exact Hx. reflexivity.
Qed.

Lemma unchanged_except_weaken outs outs' w w' :
  (forall p, p ∈ outs -> p ∈ outs') -> unchanged_except outs w w' -> unchanged_except outs' w w'.
Proof.
  intros Hsub (Hf & Hw & He). split; [|split; assumption].
  intros p Hp. apply Hf. intros Hin. apply Hp, Hsub, Hin.
Qed.

Lemma ellippi_rows_records lines o :
  ellippi_rows stod_value fmt17 ellip3 lines = (o, Completed) ->
  exists outs, o = terminated nl outs /\
    Forall2 (fun l out => 2 <= length (split_words l) /\ exists a, out = l ++ lit "    " ++ fmt17 a)
      lines outs.
Proof.
  revert o. induction lines as [|line lines IH]; intros o H; cbn [ellippi_rows] in H.
  - injection H as <-. exists []. split; [reflexivity|constructor].
  - destruct (split_words line !! 1) as [s1|] eqn:E1; [|discriminate].
    destruct (stod stod_value s1) as [k|]; [|discriminate].
    destruct (split_words line !! 0) as [s0|]; [|discriminate].
    destruct (stod stod_value s0) as [v|]; [|discriminate].
    destruct (ellip3 k v) as [ans|]; [|discriminate].
    destruct (ellippi_rows stod_value fmt17 ellip3 lines) as [o' st'] eqn:Erest.
    injection H as <- ->. destruct (IH o' eq_refl) as (outs & -> & Houts).
    exists ((line ++ lit "    " ++ fmt17 ans) :: outs). split.
    + unfold terminated. cbn [map concat]. rewrite <- !app_assoc. reflexivity.
    + constructor; [|exact Houts]. split; [|exists ans; reflexivity].
      apply lookup_lt_Some in E1. lia.
Qed.

Lemma blank_not_converted f :
  Forall (fun c => is_space c = true) f -> stod stod_value f = None.
Proof.
  intros Hsp. unfold stod. replace (strtod_converts f) with false; [reflexivity|].
  unfold strtod_converts. rewrite <- (app_nil_r f), SplitWordsProofs.skip_ws_spaces by exact Hsp.
  reflexivity.
Qed.

Lemma carlson_rows_blank_field nargs func line rest i f :
  nargs <= length (split line) -> i < nargs -> split line !! i = Some f ->
  Forall (fun c => is_space c = true) f ->
  carlson_rows stod_value fmt17 nargs func (line :: rest) = ([], Aborted).
Proof.
  intros Hlen Hi Hf Hsp. cbn [carlson_rows].
  rewrite bool_decide_eq_false_2 by (intros ->; discriminate Hf).
  replace (length (split line) <? nargs) with false by (symmetry; apply Nat.ltb_ge; exact Hlen).
  replace (parse_args stod_value (take nargs (split line))) with (@None (list double)); [reflexivity|].
  symmetry. apply parse_args_None. apply Exists_exists. exists f. split.
  - apply (list_elem_of_lookup_2 _ i). rewrite lookup_take_lt by exact Hi. exact Hf.
  - apply blank_not_converted. exact Hsp.
Qed.

End GeneratorExtras.

(** * Writing tokens and reading them back with [split_words] *)
Module SplitWordsExtras.

Lemma ws_tokens_prepend w s ts :
  Forall (fun c => is_space c = true) w -> ws_tokens s ts -> ws_tokens (w ++ s) ts.
Proof.
  intros Hw H. destruct H as [w0 Hw0|w0 t rest ts Hw0 Hne Ht Hr Hrest].
  - constructor. apply Forall_app. split; assumption.
  - rewrite app_assoc. constructor; auto. apply Forall_app. split; assumption.
Qed.

Lemma ws_tokens_join_sp ts :
  Forall (fun t => t <> [] /\ Forall (fun c => is_space c = false) t) ts -> ws_tokens (join_sp ts) ts.
Proof.
  induction 1 as [|t ts [Hne Ht] Hts IH]; [constructor; constructor|].
  destruct ts as [|t' ts].
  - assert (E : t = [] ++ t ++ []) by (rewrite app_nil_r; reflexivity).
    cbn [join_sp]. rewrite E at 1. constructor; auto; constructor.
  - change (ws_tokens ([] ++ t ++ (lit " " ++ join_sp (t' :: ts))) (t :: t' :: ts)).
    apply wt_cons; [constructor|exact Hne|exact Ht|reflexivity|].
    apply ws_tokens_prepend; [repeat constructor|exact IH].
Qed.

Lemma split_words_join_sp ts :
  Forall (fun t => t <> [] /\ Forall (fun c => is_space c = false) t) ts ->
  split_words (join_sp ts) = ts.
Proof.
  intros H. unfold split_words.
  apply (SplitWordsProofs.ws_tokens_split_words_go _ _ (ws_tokens_join_sp ts H)). lia.
Qed.

End SplitWordsExtras.

Module ExtractorExtras.
Import Extractor ExtractorProofs.

Lemma number_char_not_space c : re_chars number_re c = true -> is_space c = false.
Proof. destruct c as [[] [] [] [] [] [] [] []]; vm_compute; congruence. Qed.

Lemma number_token s : in_re number_re s -> s <> [] /\ Forall (fun c => is_space c = false) s.
Proof.
  intros H. split.
  - intros ->. apply number_re_literal in H.
    destruct H as (g & i & f & e & Heq & _ & _ & [[Hi _]|(ds & -> & _ & _)] & _);
      symmetry in Heq; apply app_eq_nil in Heq as [_ Heq]; apply app_eq_nil in Heq as [Hi' Heq].
    + contradiction.
    + apply app_eq_nil in Heq as [Hf _]. discriminate Hf.
  - eapply Forall_impl; [apply in_re_chars; exact H|]. exact number_char_not_space.
Qed.

Lemma join_sp_no_nl caps :
  Forall (fun t => Forall (fun c => is_space c = false) t) caps -> Forall (fun c => c <> nl) (join_sp caps).
Proof.
  induction 1 as [|x caps Hx _ IH]; [constructor|].
  assert (Hx' : Forall (fun c => c <> nl) x)
    by (eapply Forall_impl; [exact Hx|]; intros c Hc ->; discriminate Hc).
  destruct caps as [|y caps]; [exact Hx'|].
  change (join_sp (x :: y :: caps)) with (x ++ " "%char :: join_sp (y :: caps)).
  apply Forall_app. split; [exact Hx'|]. constructor; [apply Ascii.eqb_neq; reflexivity|exact IH].
Qed.

Lemma block_rows_terminated lines :
  exists R, block_rows lines = terminated nl R /\
    Forall (fun r => exists caps, caps <> [] /\ Forall (in_re number_re) caps /\ r = join_sp caps) R.
Proof.
  induction lines as [|l lines IH]; [exists []; split; [reflexivity|constructor]|].
  cbn [block_rows]. destruct (is_block_end l); [exists []; split; [reflexivity|constructor]|].
  destruct IH as (R & -> & HR).
  destruct (contains (lit "SC_") l); [|exists R; split; [reflexivity|exact HR]].
  rewrite row_output_occurrences.
  assert (Hocc : Forall (in_re number_re) (occurrences l)).
  { rewrite <- sregex_captures_occurrences. apply Forall_forall. intros c Hc.
    eapply regex_iter_in_re. exact Hc. }
  destruct (occurrences l) as [|x xs]; [exists R; split; [reflexivity|exact HR]|].
  exists (join_sp (x :: xs) :: R). split.
  - unfold terminated. cbn [map concat]. rewrite <- app_assoc. reflexivity.
  - constructor; [|exact HR]. exists (x :: xs). split; [discriminate|split; [exact Hocc|reflexivity]].
Qed.

End ExtractorExtras.

(** * Extra properties: delimited text *)
Module LineTheorems.

(** X1: lines written each followed by the delimiter, none holding it,
    are read back by the [std::getline] loop exactly, empty lines included. *)
Theorem read_back_terminated_lines d ls :
  Forall (Forall (fun c => c <> d)) ls -> getlines d (terminated d ls) = ls.
Proof. apply LineProofs.getlines_terminated. Qed.

(** X2: [split] recovers comma-joined fields that hold no comma, provided
    there is at least one and the last one is not empty (an empty last
    field is dropped by [std::getline]). *)
Theorem split_joined_fields fs :
  fs <> [] -> Forall (Forall (fun c => c <> ","%char)) fs -> last fs <> Some [] ->
  split (join_with ","%char fs) = fs.
Proof. apply LineProofs.getlines_join. Qed.

(** X3: the [std::getline] loop loses nothing but one trailing delimiter:
    no piece holds the delimiter, and the pieces joined by it, followed by
    the delimiter when the text ends with one, give back the text. *)
Theorem getlines_rejoin d s :
  Forall (Forall (fun c => c <> d)) (getlines d s) /\
  join_with d (getlines d s) ++ (if ends_with d s then [d] else []) = s.
Proof. apply (LineProofs.getline_go_rejoin d s []). constructor. Qed.

End LineTheorems.

(** * Extra properties: the generators *)
Section GeneratorTheorems.
Context {double : Type}.
Context (stod_value : str -> option double) (fmt17 : double -> str).
Context (ellint_rf ellint_rg : double -> double -> double -> option double).
Context (ellint_rj : double -> double -> double -> double -> option double).
Context (ellip3 : double -> double -> option double).

(** X5: every line the Carlson loop writes, split at its commas, is the
    [nargs] formatted arguments followed by the formatted value [func]
    returned for them (when formatted numbers are non-empty and hold no
    comma or newline, and [nargs >= 1]). *)
Theorem carlson_output_fields nargs func lines o st :
  (forall x, fmt17 x <> [] /\ Forall (fun c => c <> ","%char /\ c <> nl) (fmt17 x)) ->
  1 <= nargs ->
  carlson_rows stod_value fmt17 nargs func lines = (o, st) ->
  Forall (fun l => exists args r, length args = nargs /\ func args = Some r /\
                     split l = map fmt17 args ++ [fmt17 r]) (getlines nl o).
Proof.
  intros Hf Hn Hrun. destruct (carlson_rows_records _ _ _ _ _ _ _ Hrun) as (recs & -> & Hrecs).
  rewrite LineProofs.getlines_terminated.
  - eapply Forall_impl; [exact Hrecs|]. intros l (args & r & Hlen & Hr & ->).
    exists args, r. split; [exact Hlen|split; [exact Hr|]].
    apply record_fields; [exact Hf|]. intros ->. simpl in Hlen. lia.
  - eapply Forall_impl; [exact Hrecs|]. intros l (args & r & Hlen & Hr & ->).
    apply record_fields; [exact Hf|]. intros ->. simpl in Hlen. lia.
Qed.

(** X6: [process_carlson] changes no file but its output file, no
    permission, and never writes to std::cerr. *)
Theorem process_carlson_frame infile outfile nargs func w :
  unchanged_except [outfile] w (snd (process_carlson stod_value fmt17 infile outfile nargs func w)).
Proof. apply process_carlson_frame_aux. Qed.

(** X7: with a missing input file and a writable output file,
    [process_carlson] completes, leaves the output file empty and still
    prints "Generated <outfile>.". *)
Theorem process_carlson_missing_input infile outfile nargs func w :
  files w !! infile = None -> outfile ∈ writable w ->
  process_carlson stod_value fmt17 infile outfile nargs func w
  = (Completed, {| files := <[outfile := []]> (files w); writable := writable w;
                   cout := cout w ++ [lit "Generated " ++ lit outfile ++ lit "."];
                   cerr := cerr w |}).
Proof.
  intros Hin Hout. unfold process_carlson, truncate, open_in, open_out.
  rewrite (bool_decide_eq_false_2 (is_Some (files w !! infile)))
    by (rewrite Hin; intros [? H]; discriminate H).
  rewrite (bool_decide_eq_true_2 (outfile ∈ writable w)) by exact Hout.
  cbn [carlson_rows]. unfold print_out, set_file. cbn. rewrite insert_insert_eq. reflexivity.
Qed.

(** X8: when the ellippi loop completes, its output has one line per
    input line, in order: the input line unchanged, four spaces and a
    formatted value; and every input line has at least two words. *)
Theorem ellippi_output_lines c o :
  (forall x, Forall (fun ch => ch <> nl) (fmt17 x)) ->
  ellippi_rows stod_value fmt17 ellip3 (getlines nl c) = (o, Completed) ->
  Forall2 (fun l out => 2 <= length (split_words l) /\ exists a, out = l ++ lit "    " ++ fmt17 a)
    (getlines nl c) (getlines nl o).
Proof.
  intros Hf Hrun. destruct (ellippi_rows_records _ _ _ _ _ Hrun) as (outs & -> & H2).
  rewrite LineProofs.getlines_terminated; [exact H2|].
  destruct (LineProofs.getline_go_rejoin nl c [] (List.Forall_nil _)) as [Hlines _].
  clear Hrun. revert Hlines. unfold getlines in H2 |- *.
  induction H2 as [|l out lines outs [_ (a & ->)] _ IH]; intros Hlines; constructor.
  - apply Forall_cons in Hlines as [Hl _]. apply Forall_app. split; [exact Hl|].
    apply Forall_app. split; [|apply Hf].
    repeat constructor; apply Ascii.eqb_neq; reflexivity.
  - apply Forall_cons in Hlines as [_ Hlines]. exact (IH Hlines).
Qed.

(** X9: a row with at least [nargs] fields, one of the first [nargs] of
    which is empty or blank, aborts the Carlson loop (std::stod throws):
    the lines after it are never processed. *)
Theorem carlson_blank_field_aborts nargs func pre line rest i f :
  nargs <= length (split line) -> i < nargs -> split line !! i = Some f ->
  Forall (fun c => is_space c = true) f ->
  carlson_rows stod_value fmt17 nargs func (pre ++ line :: rest)
  = carlson_rows stod_value fmt17 nargs func (pre ++ [line]) /\
  snd (carlson_rows stod_value fmt17 nargs func (pre ++ line :: rest)) = Aborted.
Proof.
  intros Hlen Hi Hf Hsp.
  pose proof (carlson_rows_blank_field stod_value fmt17 nargs func line rest i f Hlen Hi Hf Hsp) as Hr.
  pose proof (carlson_rows_blank_field stod_value fmt17 nargs func line [] i f Hlen Hi Hf Hsp) as Hr1.
  induction pre as [|l pre IH]; simpl app.
  - rewrite Hr, Hr1. split; reflexivity.
  - destruct IH as [IH1 IH2]. cbn [carlson_rows]. rewrite IH1. rewrite IH1 in IH2.
    split; [reflexivity|].
    destruct (bool_decide (l = [])); [exact IH2|].
    destruct (length (split l) <? nargs); [exact IH2|].
    destruct (parse_args stod_value (take nargs (split l))); [|reflexivity].
    destruct (func _); [|reflexivity].
    destruct (carlson_rows stod_value fmt17 nargs func (pre ++ [line])) as [o st].
    exact IH2.
Qed.

(** X10: a run of the Carlson generator changes no file but its four
    output files, no permission, and never writes to std::cerr. *)
Theorem carlson_main_frame w :
  unchanged_except ["elliprf_data.csv"; "elliprg_data.csv"; "elliprj_data.csv"; "elliprj_pv.csv"]%string
    w (snd (carlson_main stod_value fmt17 ellint_rf ellint_rg ellint_rj w)).
Proof.
  assert (Hrun : forall (p : prog) w0, snd (run_main p w0) = snd (p w0))
    by (intros p w0; unfold run_main; destruct (p w0); reflexivity).
  unfold carlson_main. rewrite Hrun. revert w.
  repeat apply seq_p_unchanged; intros w;
    (eapply unchanged_except_weaken; [|apply process_carlson_frame_aux]);
    intros p Hp; apply list_elem_of_singleton in Hp; subst p; set_solver.
Qed.

(** X11: the ellippi program changes no file but its output file, no
    permission, and never writes to std::cout. *)
Theorem ellippi_main_frame w :
  let w' := snd (ellippi_main stod_value fmt17 ellip3 w) in
  (forall p, p <> ellippi_out -> files w' !! p = files w !! p) /\
  writable w' = writable w /\ cout w' = cout w.
Proof.
  unfold ellippi_main, truncate. cbv zeta.
  destruct (open_in ellippi_in w), (open_out ellippi_out w); simpl;
    try (destruct (ellippi_rows _ _ _ _) as [text st]; simpl);
    (split; [|split; reflexivity]); intros p Hp;
    rewrite ?lookup_insert_ne by congruence; reflexivity.
Qed.

(** X12: with ellippi2_data.txt missing and the output writable, the
    ellippi program exits with 1 and prints "Cannot open file", yet has
    already truncated the output file to empty. *)
Theorem ellippi_missing_input_truncates w :
  files w !! ellippi_in = None -> ellippi_out ∈ writable w ->
  fst (ellippi_main stod_value fmt17 ellip3 w) = ExitCode 1 /\
  files (snd (ellippi_main stod_value fmt17 ellip3 w)) !! ellippi_out = Some [] /\
  cerr (snd (ellippi_main stod_value fmt17 ellip3 w)) = cerr w ++ [lit "Cannot open file"].
Proof.
  intros Hin Hout. unfold ellippi_main, truncate, open_in, open_out.
  rewrite (bool_decide_eq_false_2 (is_Some (files w !! ellippi_in)))
    by (rewrite Hin; intros [? H]; discriminate H).
  rewrite (bool_decide_eq_true_2 (ellippi_out ∈ writable w)) by exact Hout.
  simpl. split; [reflexivity|split; [apply lookup_insert_eq|reflexivity]].
Qed.

End GeneratorTheorems.

(** * Extra properties: the extractor *)
Module ExtractorTheorems.
Import Extractor ExtractorProofs ExtractorExtras.

(** X13: [extract_ipp_data] always completes, changes no file but its
    output file, no permission, and prints nothing; a writable output file
    ends up holding the extraction of the input's lines (none when the
    input is missing or is the output file itself, truncated first). *)
Theorem extract_ipp_data_effect input output w :
  let r := extract_ipp_data input output w in
  fst r = Completed /\
  (forall p, p <> output -> files (snd r) !! p = files w !! p) /\
  writable (snd r) = writable w /\ cout (snd r) = cout w /\ cerr (snd r) = cerr w /\
  (output ∈ writable w ->
   files (snd r) !! output
   = Some (extract_text (if bool_decide (input = output) then []
                         else getlines nl (default [] (files w !! input))))).
Proof.
  unfold extract_ipp_data, truncate, open_in, open_out, set_file. cbv zeta.
  destruct (bool_decide (output ∈ writable w)) eqn:Ho; simpl.
  - split; [reflexivity|split; [|split; [reflexivity|split; [reflexivity|split; [reflexivity|]]]]].
    + intros p Hp. rewrite !lookup_insert_ne by congruence. reflexivity.
    + intros _. rewrite lookup_insert_eq. f_equal.
      destruct (decide (input = output)) as [->|Hne].
      * rewrite (bool_decide_eq_true_2 (output = output)) by reflexivity. rewrite lookup_insert_eq.
        destruct (bool_decide (is_Some _)); reflexivity.
      * rewrite (bool_decide_eq_false_2 (input = output)) by exact Hne.
        rewrite lookup_insert_ne by congruence.
        destruct (files w !! input); reflexivity.
  - split; [reflexivity|split; [|split; [reflexivity|split; [reflexivity|split; [reflexivity|]]]]].
    + intros p Hp. reflexivity.
    + intros Hw. apply bool_decide_eq_false in Ho. contradiction.
Qed.

(** X14: the pattern matches at the front of a string exactly when the
    string is [SC_(], a numeric literal of the ECMAScript grammar, [)] and
    a rest; the match returns that literal as group 1 and that rest. *)
Theorem match_at_iff s cap rest :
  match_at s = Some (cap, rest) <-> s = lit "SC_(" ++ cap ++ ")"%char :: rest /\ ecma_literal cap.
Proof.
  rewrite <- number_re_literal. split; [apply match_at_Some|].
  intros [-> H]. apply match_at_literal. exact H.
Qed.

(** X15: every line the extractor writes is a non-empty, single-space
    separated list of numeric literals: read back with [split_words] it
    gives those literals, which rejoined with spaces give the line. *)
Theorem extract_output_lines lines :
  Forall (fun out => split_words out <> [] /\ Forall ecma_literal (split_words out)
                     /\ join_sp (split_words out) = out)
    (getlines nl (extract_text lines)).
Proof.
  unfold extract_text. destruct (block_rows_terminated (skip_to_start lines)) as (R & -> & HR).
  rewrite LineProofs.getlines_terminated.
  - eapply Forall_impl; [exact HR|]. intros r (caps & Hne & Hcaps & ->).
    rewrite SplitWordsExtras.split_words_join_sp.
    + split; [exact Hne|split; [|reflexivity]].
      eapply Forall_impl; [exact Hcaps|]. intros c Hc. apply number_re_literal. exact Hc.
    + eapply Forall_impl; [exact Hcaps|]. exact number_token.
  - eapply Forall_impl; [exact HR|]. intros r (caps & _ & Hcaps & ->).
    apply join_sp_no_nl. eapply Forall_impl; [exact Hcaps|].
    intros t Ht. apply (number_token t Ht).
Qed.

End ExtractorTheorems.

(** ** Evaluations of the extra properties *)

Lemma read_back_terminated_lines_witness :
  Forall (Forall (fun c => c <> nl)) [lit "1,2,3"; []] /\
  getlines nl (terminated nl [lit "1,2,3"; []]) = [lit "1,2,3"; []].
Proof.
  assert (H : Forall (Forall (fun c => c <> nl)) [lit "1,2,3"; []])
    by (repeat constructor; apply Ascii.eqb_neq; reflexivity).
  split; [exact H|]. apply LineTheorems.read_back_terminated_lines. exact H.
Defined.

Lemma split_joined_fields_witness :
  [lit "1"; lit "2"; lit "3"] <> [] /\
  Forall (Forall (fun c => c <> ","%char)) [lit "1"; lit "2"; lit "3"] /\
  last [lit "1"; lit "2"; lit "3"] <> Some [] /\
  split (join_with ","%char [lit "1"; lit "2"; lit "3"]) = [lit "1"; lit "2"; lit "3"].
Proof.
  assert (H1 : [lit "1"; lit "2"; lit "3"] <> []) by discriminate.
  assert (H2 : Forall (Forall (fun c => c <> ","%char)) [lit "1"; lit "2"; lit "3"])
    by (repeat constructor; discriminate).
  assert (H3 : last [lit "1"; lit "2"; lit "3"] <> Some []) by (vm_compute; intros H; discriminate H).
  split; [exact H1|split; [exact H2|split; [exact H3|]]].
  apply LineTheorems.split_joined_fields; assumption.
Defined.

Lemma carlson_output_fields_witness :
  (forall x, u_fmt x <> [] /\ Forall (fun c => c <> ","%char /\ c <> nl) (u_fmt x)) /\ 1 <= 3 /\
  carlson_rows u_value u_fmt 3 u_fn [lit "1,2,3"] = (lit "0,0,0,0" ++ [nl], Completed) /\
  Forall (fun l => exists args r, length args = 3 /\ u_fn args = Some r /\
                     split l = map u_fmt args ++ [u_fmt r]) (getlines nl (lit "0,0,0,0" ++ [nl])).
Proof.
  assert (Hf : forall x, u_fmt x <> [] /\ Forall (fun c => c <> ","%char /\ c <> nl) (u_fmt x)).
  { intros x. split; [discriminate|].
    repeat constructor; first [discriminate|apply Ascii.eqb_neq; reflexivity]. }
  assert (Hr : carlson_rows u_value u_fmt 3 u_fn [lit "1,2,3"] = (lit "0,0,0,0" ++ [nl], Completed))
    by reflexivity.
  split; [exact Hf|split; [lia|split; [exact Hr|]]].
  apply (carlson_output_fields u_value u_fmt 3 u_fn [lit "1,2,3"] _ Completed Hf); [lia|exact Hr].
Defined.

Lemma process_carlson_missing_input_witness :
  files csv_missing_world !! "in.csv"%string = None /\ "out.csv"%string ∈ writable csv_missing_world /\
  process_carlson u_value u_fmt "in.csv" "out.csv" 3 u_fn csv_missing_world
  = (Completed, {| files := <[ "out.csv"%string := [] ]> (files csv_missing_world);
                   writable := writable csv_missing_world;
                   cout := cout csv_missing_world ++ [lit "Generated " ++ lit "out.csv" ++ lit "."];
                   cerr := cerr csv_missing_world |}).
Proof.
  assert (H1 : files csv_missing_world !! "in.csv"%string = None) by reflexivity.
  assert (H2 : "out.csv"%string ∈ writable csv_missing_world)
    by (simpl; apply elem_of_singleton; reflexivity).
  split; [exact H1|split; [exact H2|]]. apply process_carlson_missing_input; assumption.
Defined.

Lemma ellippi_output_lines_witness :
  (forall x, Forall (fun ch => ch <> nl) (u_fmt x)) /\
  ellippi_rows u_value u_fmt u_ellip3 (getlines nl (lit "0.5 0.5" ++ [nl]))
  = (lit "0.5 0.5    0" ++ [nl], Completed) /\
  Forall2 (fun l out => 2 <= length (split_words l) /\ exists a, out = l ++ lit "    " ++ u_fmt a)
    (getlines nl (lit "0.5 0.5" ++ [nl])) (getlines nl (lit "0.5 0.5    0" ++ [nl])).
Proof.
  assert (Hf : forall x, Forall (fun ch => ch <> nl) (u_fmt x))
    by (intros x; repeat constructor; apply Ascii.eqb_neq; reflexivity).
  assert (Hr : ellippi_rows u_value u_fmt u_ellip3 (getlines nl (lit "0.5 0.5" ++ [nl]))
               = (lit "0.5 0.5    0" ++ [nl], Completed)) by reflexivity.
  split; [exact Hf|split; [exact Hr|]].
  apply (ellippi_output_lines u_value u_fmt u_ellip3); assumption.
Defined.

Lemma carlson_blank_field_aborts_witness :
  3 <= length (split (lit "1,,2")) /\ 1 < 3 /\ split (lit "1,,2") !! 1 = Some [] /\
  Forall (fun c => is_space c = true) [] /\
  carlson_rows u_value u_fmt 3 u_fn ([] ++ lit "1,,2" :: [lit "4,5,6"])
  = carlson_rows u_value u_fmt 3 u_fn ([] ++ [lit "1,,2"]) /\
  snd (carlson_rows u_value u_fmt 3 u_fn ([] ++ lit "1,,2" :: [lit "4,5,6"])) = Aborted.
Proof.
  assert (H1 : 3 <= length (split (lit "1,,2"))) by (apply Nat.leb_le; reflexivity).
  assert (H3 : split (lit "1,,2") !! 1 = Some []) by reflexivity.
  assert (H4 : Forall (fun c => is_space c = true) []) by constructor.
  split; [exact H1|split; [lia|split; [exact H3|split; [exact H4|]]]].
  apply (carlson_blank_field_aborts u_value u_fmt 3 u_fn [] (lit "1,,2") [lit "4,5,6"] 1 []);
    [exact H1|lia|exact H3|exact H4].
Defined.

Lemma ellippi_missing_input_truncates_witness :
  files ellippi_missing_input_world !! ellippi_in = None /\
  ellippi_out ∈ writable ellippi_missing_input_world /\
  fst (ellippi_main u_value u_fmt u_ellip3 ellippi_missing_input_world) = ExitCode 1 /\
  files (snd (ellippi_main u_value u_fmt u_ellip3 ellippi_missing_input_world)) !! ellippi_out
    = Some [] /\
  cerr (snd (ellippi_main u_value u_fmt u_ellip3 ellippi_missing_input_world))
    = cerr ellippi_missing_input_world ++ [lit "Cannot open file"].
Proof.
  assert (H1 : files ellippi_missing_input_world !! ellippi_in = None) by reflexivity.
  assert (H2 : ellippi_out ∈ writable ellippi_missing_input_world)
    by (simpl; apply elem_of_singleton; reflexivity).
  split; [exact H1|split; [exact H2|]].
  apply ellippi_missing_input_truncates; assumption.
Defined.
